(** * nut_ros geometry kernel: Vector2, Pose2D and Line2D

    A shallow embedding of [vector/vector2.h], [vector/pose_2D.h],
    [vector/line_2D.h] and of [Generic::guard] from [nut_generic.h],
    followed by the code around them: [PolygonMsgGenerator], the parts of
    [MsgGenerator] and [MsgDecoder] that move a pose in and out of a Twist or
    an Accel message, the [PID] controller and [Angles].

    The template parameter [T] of the three classes is instantiated with the
    field of real numbers: rounding of [float]/[double] is outside the model,
    so "equal within floating tolerance" reads as equality in [R].

    Two effects of the C++ code are kept visible:
    - a division whose divisor is zero has no value in [R]; it is modelled as
      the failure [None] of the effect type [Eff] (in IEEE arithmetic it
      yields a non-finite number);
    - text written to [std::cout] is collected as a list of tokens.

    Mutating member functions take the receiver [this] and return the new
    receiver; assignments to fields are successive record updates. *)

From Stdlib Require Import Reals Lra List String Bool ZArith Lia.
Import ListNotations.

Local Open Scope R_scope.

(** ** Comparisons of the scalar type as booleans *)

Definition Rltb (a b : R) : bool := if Rlt_dec a b then true else false.
Definition Rgtb (a b : R) : bool := Rltb b a.
Definition Reqb (a b : R) : bool := if Req_dec_T a b then true else false.

(** [std::atan2 (y, x)] on the reals: the angle in [(-PI, PI]] of the point
    [(x, y)], and [0] at the origin. *)
Definition atan2 (y x : R) : R :=
  if Rlt_dec 0 x then atan (y / x)
  else if Rlt_dec x 0 then
    if Rle_dec 0 y then atan (y / x) + PI else atan (y / x) - PI
  else if Rlt_dec 0 y then PI / 2
  else if Rlt_dec y 0 then - (PI / 2)
  else 0.

(** ** Effects: division by zero and output to [std::cout] *)

Inductive token : Type :=
| TStr (s : string)
| TNum (v : R)
| TEndl.

Definition Eff (A : Type) : Type := option (A * list token).

Definition ret {A : Type} (a : A) : Eff A := Some (a, []).

Definition bind {A B : Type} (m : Eff A) (k : A -> Eff B) : Eff B :=
  match m with
  | None => None
  | Some (a, out1) =>
      match k a with
      | None => None
      | Some (b, out2) => Some (b, out1 ++ out2)
      end
  end.

Notation "x <- m ;; k" := (bind m (fun x => k))
  (at level 61, m at next level, right associativity).

(** [x / y] of the source: undefined when the divisor is zero. *)
Definition divide (a b : R) : Eff R :=
  if Req_dec_T b 0 then None else ret (a / b).

(** [std::cout << ...]. *)
Definition cout (ts : list token) : Eff unit := Some (tt, ts).

(** The returned value and the text written, when the run is defined. *)
Definition value {A : Type} (m : Eff A) : option A := option_map fst m.
Definition output {A : Type} (m : Eff A) : option (list token) := option_map snd m.

(** ** nut_generic.h: class Generic *)

Module Generic.

Definition guard (x min max : R) : R :=
  if Rltb x min then min else if Rgtb x max then max else x.

End Generic.

(** ** vector/vector2.h: class Vector2 *)

Module Vector2.

Record t : Type := mk { x : R; y : R }.

(** Field assignment [this.x = v], [this.y = v]. *)
Definition set_x (this : t) (v : R) : t := mk v (y this).
Definition set_y (this : t) (v : R) : t := mk (x this) v.

(** [constexpr Vector2() = default]. *)
Definition default : t := mk 0 0.

Definition eqb (this v : t) : bool :=
  Reqb (x this) (x v) && Reqb (y this) (y v).

Definition neqb (this v : t) : bool :=
  negb (Reqb (x this) (x v) && Reqb (y this) (y v)).

Definition equals (this v : t) : bool := eqb this v.

Definition set (this : t) (_x _y : R) : t :=
  let this := set_x this _x in
  let this := set_y this _y in
  this.

Definition setByPolar (this : t) (r angle : R) : t :=
  let this := set_x this (r * cos angle) in
  let this := set_y this (r * sin angle) in
  this.

(** [rotate(T angle)]: the second assignment reads the field [x] that the
    first one has just written. *)
Definition rotate (this : t) (angle : R) : t :=
  let this := set_x this (x this * cos angle - y this * sin angle) in
  let this := set_y this (x this * sin angle + y this * cos angle) in
  this.

(** [rotate(Vector2 o, T angle)]. *)
Definition rotate_about (this : t) (o : t) (angle : R) : t :=
  let p := mk (x this - x o) (y this - y o) in
  let p := rotate p angle in
  let p := set_x p (x p + x o) in
  let p := set_y p (y p + y o) in
  let this := set_x this (x p) in
  let this := set_y this (y p) in
  this.

(** [rotate(T rot_x, T rot_y, T angle)]. *)
Definition rotate_xy (this : t) (rot_x rot_y angle : R) : t :=
  let p := mk rot_x rot_y in
  rotate_about this p angle.

Definition sqrMagnitude (this : t) : R := x this * x this + y this * y this.
Definition sqrLength (this : t) : R := sqrMagnitude this.
Definition magnitude (this : t) : R := sqrt (sqrMagnitude this).
Definition length (this : t) : R := magnitude this.

(** [operator=(T s)] and the unary [operator+]. *)
Definition assign_scalar (this : t) (s : R) : t :=
  let this := set_x this s in
  let this := set_y this s in
  this.

Definition pos (this : t) : t := this.

Definition neg (this : t) : t := mk (- x this) (- y this).
Definition add (this v : t) : t := mk (x this + x v) (y this + y v).
Definition sub (this v : t) : t := mk (x this - x v) (y this - y v).
Definition mul (this : t) (s : R) : t := mk (x this * s) (y this * s).

Definition div (this : t) (s : R) : Eff t :=
  x' <- divide (x this) s ;;
  y' <- divide (y this) s ;;
  ret (mk x' y').

Definition add_assign (this v : t) : t :=
  let this := set_x this (x this + x v) in
  let this := set_y this (y this + y v) in
  this.

Definition sub_assign (this v : t) : t :=
  let this := set_x this (x this - x v) in
  let this := set_y this (y this - y v) in
  this.

Definition mul_assign (this : t) (s : R) : t :=
  let this := set_x this (x this * s) in
  let this := set_y this (y this * s) in
  this.

Definition div_assign (this : t) (s : R) : Eff t :=
  x' <- divide (x this) s ;;
  let this := set_x this x' in
  y' <- divide (y this) s ;;
  let this := set_y this y' in
  ret this.

Definition normalize (this : t) : Eff t := div_assign this (length this).
Definition normalized (this : t) : Eff t := div this (length this).

Definition getDot (a b : t) : R := x a * x b + y a * y b.
Definition getCross (a b : t) : R := x a * y b - y a * x b.

Definition getAngle (a b : t) : R := atan2 (y b - y a) (x b - x a).

Definition getDistance (a b : t) : R :=
  let v := sub b a in
  magnitude v.

Definition lerp (a b : t) (t0 : R) : t :=
  let t0 := Generic.guard t0 0 1 in
  let v := a in
  let v := set_x v (x v + (x b - x a) * t0) in
  let v := set_y v (y v + (y b - y a) * t0) in
  v.

End Vector2.

(** ** vector/pose_2D.h: class Pose2D *)

Module Pose2D.

Record t : Type := mk { x : R; y : R; theta : R }.

Definition set_x (this : t) (v : R) : t := mk v (y this) (theta this).
Definition set_y (this : t) (v : R) : t := mk (x this) v (theta this).
Definition set_theta (this : t) (v : R) : t := mk (x this) (y this) v.

(** [Pose2D() = default]. *)
Definition default : t := mk 0 0 0.

(** [Pose2D(T _x, T _y)]: the orientation keeps its initialiser [0]. *)
Definition of_xy (_x _y : R) : t := mk _x _y 0.

(** [Pose2D(const Vector2<T> &v, T _theta)] and [Pose2D(const Vector2<T> &v)]. *)
Definition of_vector_theta (v : Vector2.t) (_theta : R) : t :=
  let this := default in
  let this := set_x this (Vector2.x v) in
  let this := set_y this (Vector2.y v) in
  let this := set_theta this _theta in
  this.

Definition of_vector (v : Vector2.t) : t :=
  let this := default in
  let this := set_x this (Vector2.x v) in
  let this := set_y this (Vector2.y v) in
  this.

(** [operator==]: the third comparison is [theta == v.y]. *)
Definition eqb (this v : t) : bool :=
  Reqb (x this) (x v) && Reqb (y this) (y v) && Reqb (theta this) (y v).

Definition neqb (this v : t) : bool :=
  negb (Reqb (x this) (x v) && Reqb (y this) (y v) && Reqb (theta this) (y v)).

Definition equals (this v : t) : bool := eqb this v.

Definition set (this : t) (_x _y _theta : R) : t :=
  let this := set_x this _x in
  let this := set_y this _y in
  let this := set_theta this _theta in
  this.

Definition setByPolar (this : t) (r angle robot_theta : R) : t :=
  let this := set_x this (r * cos angle) in
  let this := set_y this (r * sin angle) in
  let this := set_theta this robot_theta in
  this.

(** [rotate(T angle)]: both fields are saved before either is written. *)
Definition rotate (this : t) (angle : R) : t :=
  let tmp_x := x this in
  let tmp_y := y this in
  let this := set_x this (tmp_x * cos angle - tmp_y * sin angle) in
  let this := set_y this (tmp_x * sin angle + tmp_y * cos angle) in
  this.

(** [rotate(Vector2<T> o, T angle)]: the work is done by [Vector2::rotate]. *)
Definition rotate_about (this : t) (o : Vector2.t) (angle : R) : t :=
  let p := Vector2.mk (x this - Vector2.x o) (y this - Vector2.y o) in
  let p := Vector2.rotate p angle in
  let p := Vector2.set_x p (Vector2.x p + Vector2.x o) in
  let p := Vector2.set_y p (Vector2.y p + Vector2.y o) in
  let this := set_x this (Vector2.x p) in
  let this := set_y this (Vector2.y p) in
  this.

Definition rotate_xy (this : t) (rot_x rot_y angle : R) : t :=
  let p := Vector2.mk rot_x rot_y in
  rotate_about this p angle.

Definition sqrMagnitude (this : t) : R := x this * x this + y this * y this.
Definition sqrLength (this : t) : R := sqrMagnitude this.
Definition magnitude (this : t) : R := sqrt (sqrMagnitude this).
Definition length (this : t) : R := magnitude this.

(** [operator=(const Pose2D &v)] and the unary [operator+]. *)
Definition assign (this v : t) : t :=
  let this := set_x this (x v) in
  let this := set_y this (y v) in
  let this := set_theta this (theta v) in
  this.

Definition pos (this : t) : t := this.

Definition neg (this : t) : t := mk (- x this) (- y this) (- theta this).
Definition add (this v : t) : t :=
  mk (x this + x v) (y this + y v) (theta this + theta v).
Definition sub (this v : t) : t :=
  mk (x this - x v) (y this - y v) (theta this - theta v).
Definition mul (this : t) (s : R) : t :=
  mk (x this * s) (y this * s) (theta this * s).

Definition div (this : t) (s : R) : Eff t :=
  x' <- divide (x this) s ;;
  y' <- divide (y this) s ;;
  theta' <- divide (theta this) s ;;
  ret (mk x' y' theta').

Definition add_assign (this v : t) : t :=
  let this := set_x this (x this + x v) in
  let this := set_y this (y this + y v) in
  let this := set_theta this (theta this + theta v) in
  this.

Definition sub_assign (this v : t) : t :=
  let this := set_x this (x this - x v) in
  let this := set_y this (y this - y v) in
  let this := set_theta this (theta this - theta v) in
  this.

Definition mul_assign (this : t) (s : R) : t :=
  let this := set_x this (x this * s) in
  let this := set_y this (y this * s) in
  let this := set_theta this (theta this * s) in
  this.

Definition div_assign (this : t) (s : R) : Eff t :=
  x' <- divide (x this) s ;;
  let this := set_x this x' in
  y' <- divide (y this) s ;;
  let this := set_y this y' in
  theta' <- divide (theta this) s ;;
  let this := set_theta this theta' in
  ret this.

Definition getDot (a b : t) : R := x a * x b + y a * y b.
Definition getCross (a b : t) : R := x a * y b - y a * x b.

Definition getAngle (a b : t) : R := atan2 (y b - y a) (x b - x a).

Definition getDistance (a b : t) : R :=
  let v := sub b a in
  magnitude v.

Definition lerp (a b : t) (t0 : R) : t :=
  let t0 := Generic.guard t0 0 1 in
  let v := a in
  let v := set_x v (x v + (x b - x a) * t0) in
  let v := set_y v (y v + (y b - y a) * t0) in
  let v := set_theta v (theta v + (theta b - theta a) * t0) in
  v.

Definition getMidpoint (a b : t) : t := lerp a b (1 / 2).

End Pose2D.

(** ** vector/line_2D.h: class Line2D *)

Module Line2D.

Record t : Type := mk { start : Pose2D.t; end_ : Pose2D.t }.

Definition set_start (this : t) (p : Pose2D.t) : t := mk p (end_ this).
Definition set_end (this : t) (p : Pose2D.t) : t := mk (start this) p.

(** [constexpr static T eps = 1e-10]. *)
Definition eps : R := 1 / 10 ^ 10.

(** [Line2D() = default]. *)
Definition default : t := mk Pose2D.default Pose2D.default.

(** [set(x1, y1, theta1, x2, y2, theta2)]. *)
Definition set6 (this : t) (x1 y1 theta1 x2 y2 theta2 : R) : t :=
  let this := set_start this (Pose2D.set_x (start this) x1) in
  let this := set_start this (Pose2D.set_y (start this) y1) in
  let this := set_start this (Pose2D.set_theta (start this) theta1) in
  let this := set_end this (Pose2D.set_x (end_ this) x2) in
  let this := set_end this (Pose2D.set_y (end_ this) y2) in
  let this := set_end this (Pose2D.set_theta (end_ this) theta2) in
  this.

(** [set(x1, y1, x2, y2)]: the orientations are left as they are. *)
Definition set4 (this : t) (x1 y1 x2 y2 : R) : t :=
  let this := set_start this (Pose2D.set_x (start this) x1) in
  let this := set_start this (Pose2D.set_y (start this) y1) in
  let this := set_end this (Pose2D.set_x (end_ this) x2) in
  let this := set_end this (Pose2D.set_y (end_ this) y2) in
  this.

(** [set(Pose2D _start, Pose2D _end)]. *)
Definition set_poses (this : t) (_start _end : Pose2D.t) : t :=
  let this := set_start this _start in
  let this := set_end this _end in
  this.

(** [set(Vector2 _start, Vector2 _end)]. *)
Definition set_vectors (this : t) (_start _end : Vector2.t) : t :=
  let this := set_start this (Pose2D.set_x (start this) (Vector2.x _start)) in
  let this := set_start this (Pose2D.set_y (start this) (Vector2.y _start)) in
  let this := set_end this (Pose2D.set_x (end_ this) (Vector2.x _end)) in
  let this := set_end this (Pose2D.set_y (end_ this) (Vector2.y _end)) in
  this.

(** The four constructors: the members start default-initialised. *)
Definition of_coords6 (x1 y1 theta1 x2 y2 theta2 : R) : t :=
  let this := set6 default x1 y1 theta1 x2 y2 theta2 in
  let this := set_start this (Pose2D.set_x (start this) x1) in
  let this := set_start this (Pose2D.set_y (start this) y1) in
  let this := set_start this (Pose2D.set_theta (start this) theta1) in
  let this := set_end this (Pose2D.set_x (end_ this) x2) in
  let this := set_end this (Pose2D.set_y (end_ this) y2) in
  let this := set_end this (Pose2D.set_theta (end_ this) theta2) in
  this.

Definition of_coords (x1 y1 x2 y2 : R) : t := set4 default x1 y1 x2 y2.
Definition of_poses (_start _end : Pose2D.t) : t := set_poses default _start _end.
Definition of_vectors (_start _end : Vector2.t) : t :=
  set_vectors default _start _end.

Definition getLength (this : t) : R :=
  Pose2D.getDistance (start this) (end_ this).

Definition getAngle (this : t) : R :=
  Pose2D.getAngle (start this) (end_ this).

Definition isPointOnLine (this : t) (p : Pose2D.t) : bool :=
  Rltb (Rabs (Pose2D.getCross (Pose2D.sub (end_ this) (start this))
                              (Pose2D.sub p (start this))))
       eps.

Definition isPointOnLineWithinRange (this : t) (p : Pose2D.t) : bool :=
  if isPointOnLine this p then
    let result := true in
    let x_min := Rmin (Pose2D.x (start this)) (Pose2D.x (end_ this)) in
    let x_max := Rmax (Pose2D.x (start this)) (Pose2D.x (end_ this)) in
    let y_min := Rmin (Pose2D.y (start this)) (Pose2D.y (end_ this)) in
    let y_max := Rmax (Pose2D.y (start this)) (Pose2D.y (end_ this)) in
    let result :=
      if Rltb (Rabs (x_max - x_min)) eps then
        if Rgtb (Rabs (x_max - Pose2D.x p)) eps then false else result
      else
        if negb (Rltb x_min (Pose2D.x p) && Rltb (Pose2D.x p) x_max)
        then false else result in
    let result :=
      if Rltb (Rabs (y_max - y_min)) eps then
        if Rgtb (Rabs (y_max - Pose2D.y p)) eps then false else result
      else
        if negb (Rltb y_min (Pose2D.y p) && Rltb (Pose2D.y p) y_max)
        then false else result in
    result
  else
    false.

Definition getIntersection (line1 line2 : t) : Eff (bool * Pose2D.t) :=
  if Rgtb (Rabs (Pose2D.getCross (Pose2D.sub (end_ line1) (start line1))
                                 (Pose2D.sub (end_ line2) (start line2))))
          eps
  then
    let a := Pose2D.sub (end_ line1) (start line1) in
    let b := Pose2D.sub (end_ line2) (start line2) in
    q <- Pose2D.div
           (Pose2D.mul a (Pose2D.getCross b (Pose2D.sub (start line2) (start line1))))
           (Pose2D.getCross b a) ;;
    let intersection := Pose2D.add (start line1) q in
    ret (true, intersection)
  else
    ret (false, Pose2D.mk 0 0 0).

Definition getIntersectionWithinRange (line1 line2 : t) : Eff (bool * Pose2D.t) :=
  r <- getIntersection line1 line2 ;;
  let '(is_intersected, intersection) := r in
  if is_intersected then
    let is_intersected :=
      isPointOnLineWithinRange line1 intersection
      && isPointOnLineWithinRange line2 intersection in
    ret (is_intersected, intersection)
  else
    ret (false, intersection).

(** [T a, b, c;] are assigned in the two branches of the test on
    [|line.start.x - line.end.x|]; the three values are passed on as a triple. *)
Definition getDistanceFromPointToLine (pose : Pose2D.t) (line : t) : Eff R :=
  abc <- (if Rgtb (Rabs (Pose2D.x (start line) - Pose2D.x (end_ line))) eps then
            a <- divide (Pose2D.y (end_ line) - Pose2D.y (start line))
                        (Pose2D.x (end_ line) - Pose2D.x (start line)) ;;
            let b := -1 in
            s <- divide (- (Pose2D.y (end_ line) - Pose2D.y (start line)))
                        (Pose2D.x (end_ line) - Pose2D.x (start line)) ;;
            let c := s * Pose2D.x (start line) + Pose2D.y (start line) in
            ret (a, b, c)
          else
            let a := 1 in
            let b := 0 in
            let c := - Pose2D.x (start line) in
            ret (a, b, c)) ;;
  let '(a, b, c) := abc in
  _ <- cout [TStr "a:"; TNum a; TStr " b:"; TNum b; TStr " c:"; TNum c; TEndl] ;;
  distance <- divide (Rabs (a * Pose2D.x pose + b * Pose2D.y pose + c))
                     (sqrt (a * a + b * b)) ;;
  ret distance.

Definition getDistanceFromPointToLineWithinRange (pose : Pose2D.t) (line : t) : Eff R :=
  abc <- (if Rgtb (Rabs (Pose2D.x (start line) - Pose2D.x (end_ line))) eps then
            a <- divide (Pose2D.y (end_ line) - Pose2D.y (start line))
                        (Pose2D.x (end_ line) - Pose2D.x (start line)) ;;
            let b := -1 in
            s <- divide (- (Pose2D.y (end_ line) - Pose2D.y (start line)))
                        (Pose2D.x (end_ line) - Pose2D.x (start line)) ;;
            let c := s * Pose2D.x (start line) + Pose2D.y (start line) in
            ret (a, b, c)
          else
            let a := 1 in
            let b := 0 in
            let c := - Pose2D.x (start line) in
            ret (a, b, c)) ;;
  let '(a, b, c) := abc in
  let p := Pose2D.x pose in
  let q := Pose2D.y pose in
  let h := Pose2D.default in
  hx <- divide (p * (a * a + b * b) - a * (a * p + b * q + c)) (a * a + b * b) ;;
  let h := Pose2D.set_x h hx in
  hy <- divide (q * (a * a + b * b) - b * (a * p + b * q + c)) (a * a + b * b) ;;
  let h := Pose2D.set_y h hy in
  if isPointOnLineWithinRange line h then
    divide (Rabs (a * Pose2D.x pose + b * Pose2D.y pose + c)) (sqrt (a * a + b * b))
  else
    ret (Rmin (Pose2D.getDistance pose (start line))
              (Pose2D.getDistance pose (end_ line))).

End Line2D.

(** ** The values of [geometry_msgs] and of [std::vector]

    The message types are declared outside the repository; they are taken
    as the plain records of coordinates the code reads and writes. *)

Module Point32.
Record t : Type := mk { x : R; y : R; z : R }.
End Point32.

Module Vector3.
Record t : Type := mk { x : R; y : R; z : R }.
Definition set_x (this : t) (v : R) : t := mk v (y this) (z this).
Definition set_y (this : t) (v : R) : t := mk (x this) v (z this).
Definition set_z (this : t) (v : R) : t := mk (x this) (y this) v.
End Vector3.

Module Twist.
Record t : Type := mk { linear : Vector3.t; angular : Vector3.t }.
Definition set_linear (this : t) (v : Vector3.t) : t := mk v (angular this).
Definition set_angular (this : t) (v : Vector3.t) : t := mk (linear this) v.
End Twist.

Module Accel.
Record t : Type := mk { linear : Vector3.t; angular : Vector3.t }.
Definition set_linear (this : t) (v : Vector3.t) : t := mk v (angular this).
Definition set_angular (this : t) (v : Vector3.t) : t := mk (linear this) v.
End Accel.

Module Polygon.
Record t : Type := mk { points : list Point32.t }.
(** [geometry_msgs::Polygon polygon;]: no points. *)
Definition empty : t := mk [].
Definition push_back (this : t) (p : Point32.t) : t := mk (points this ++ [p]).
Definition size (this : t) : nat := List.length (points this).
End Polygon.

(** [v[i]] of a [std::vector]: no value outside the bounds. *)
Definition at_index {A : Type} (v : list A) (i : nat) : option A := nth_error v i.

(** [v[i] = a] for [i] within the bounds (outside them nothing is modelled). *)
Fixpoint assign_index {A : Type} (v : list A) (i : nat) (a : A) : list A :=
  match v, i with
  | [], _ => []
  | _ :: rest, O => a :: rest
  | b :: rest, S i' => b :: assign_index rest i' a
  end.

(** ** vector/pose_2D.h: the conversions of a Pose2D to messages

    [twist] and [accel] stand for the freshly constructed message, of which
    only three coordinates are assigned. *)

Module Pose2DMsg.

Definition toTwistMsg (this : Pose2D.t) (twist : Twist.t) : Twist.t :=
  let twist := Twist.set_linear twist (Vector3.set_x (Twist.linear twist) (Pose2D.x this)) in
  let twist := Twist.set_linear twist (Vector3.set_y (Twist.linear twist) (Pose2D.y this)) in
  let twist :=
    Twist.set_angular twist (Vector3.set_z (Twist.angular twist) (Pose2D.theta this)) in
  twist.

Definition toAccelMsg (this : Pose2D.t) (accel : Accel.t) : Accel.t :=
  let accel := Accel.set_linear accel (Vector3.set_x (Accel.linear accel) (Pose2D.x this)) in
  let accel := Accel.set_linear accel (Vector3.set_y (Accel.linear accel) (Pose2D.y this)) in
  let accel :=
    Accel.set_angular accel (Vector3.set_z (Accel.angular accel) (Pose2D.theta this)) in
  accel.

Definition toVector3Msg (this : Pose2D.t) (vector3 : Vector3.t) : Vector3.t :=
  let vector3 := Vector3.set_x vector3 (Pose2D.x this) in
  let vector3 := Vector3.set_y vector3 (Pose2D.y this) in
  let vector3 := Vector3.set_z vector3 (Pose2D.theta this) in
  vector3.

End Pose2DMsg.

(** ** type_handler/msg_generator.h: class MsgGenerator *)

Module MsgGenerator.

Definition toPoint32 (x y z : R) : Point32.t := Point32.mk x y z.
Definition toVector3 (x y z : R) : Vector3.t := Vector3.mk x y z.

(** [toTwist(linear, angular)]: both members of the fresh message are
    assigned. *)
Definition toTwist (linear angular : Vector3.t) : Twist.t := Twist.mk linear angular.

Definition toTwist6 (x y z roll pitch yaw : R) : Twist.t :=
  toTwist (toVector3 x y z) (toVector3 roll pitch yaw).

Definition toTwist3 (x y yaw : R) : Twist.t := toTwist6 x y 0 0 0 yaw.

Definition toAccel (linear angular : Vector3.t) : Accel.t := Accel.mk linear angular.

Definition toAccel6 (x y z roll pitch yaw : R) : Accel.t :=
  toAccel (toVector3 x y z) (toVector3 roll pitch yaw).

Definition toAccel3 (x y yaw : R) : Accel.t := toAccel6 x y 0 0 0 yaw.

(** [rotate(geometry_msgs::Point32, float)]: a new point is filled in. *)
Definition rotate_point32 (point32 : Point32.t) (angle : R) : Point32.t :=
  Point32.mk (Point32.x point32 * cos angle - Point32.y point32 * sin angle)
             (Point32.x point32 * sin angle + Point32.y point32 * cos angle)
             (Point32.z point32).

(** [rotate(geometry_msgs::Vector3, double)]. *)
Definition rotate_vector3 (vector3 : Vector3.t) (angle : R) : Vector3.t :=
  Vector3.mk (Vector3.x vector3 * cos angle - Vector3.y vector3 * sin angle)
             (Vector3.x vector3 * sin angle + Vector3.y vector3 * cos angle)
             (Vector3.z vector3).

(** [rotate(geometry_msgs::Twist, double)] and [rotate(geometry_msgs::Accel, double)]. *)
Definition rotate_twist (twist : Twist.t) (angle : R) : Twist.t :=
  let twist := Twist.set_linear twist (rotate_vector3 (Twist.linear twist) angle) in
  twist.

Definition rotate_accel (accel : Accel.t) (angle : R) : Accel.t :=
  let accel := Accel.set_linear accel (rotate_vector3 (Accel.linear accel) angle) in
  accel.

End MsgGenerator.

(** ** type_handler/msg_decoder.h: class MsgDecoder *)

Module MsgDecoder.

Definition getLinearVector_vector3 (vector3 : Vector3.t) : list R :=
  [Vector3.x vector3; Vector3.y vector3; Vector3.z vector3].

Definition getLinearVector_twist (twist : Twist.t) : list R :=
  getLinearVector_vector3 (Twist.linear twist).

Definition getLinearVector_accel (accel : Accel.t) : list R :=
  getLinearVector_vector3 (Accel.linear accel).

Definition getAngularVector_twist (twist : Twist.t) : list R :=
  getLinearVector_vector3 (Twist.angular twist).

Definition getAngularVector_accel (accel : Accel.t) : list R :=
  getLinearVector_vector3 (Accel.angular accel).

Definition getLinearVector2_vector3 (vector3 : Vector3.t) : Vector2.t :=
  Vector2.mk (Vector3.x vector3) (Vector3.y vector3).

Definition getLinearVector2_twist (twist : Twist.t) : Vector2.t :=
  getLinearVector2_vector3 (Twist.linear twist).

(** [getPose2D(geometry_msgs::Twist)]: three reads by index. *)
Definition getPose2D_twist (twist : Twist.t) : option Pose2D.t :=
  match at_index (getLinearVector_twist twist) 0,
        at_index (getLinearVector_twist twist) 1,
        at_index (getAngularVector_twist twist) 2 with
  | Some x, Some y, Some theta => Some (Pose2D.mk x y theta)
  | _, _, _ => None
  end.

Definition getPose2D_accel (accel : Accel.t) : option Pose2D.t :=
  match at_index (getLinearVector_accel accel) 0,
        at_index (getLinearVector_accel accel) 1,
        at_index (getAngularVector_accel accel) 2 with
  | Some x, Some y, Some theta => Some (Pose2D.mk x y theta)
  | _, _, _ => None
  end.

End MsgDecoder.

(** ** type_handler/polygon_msg_generator.h: class PolygonMsgGenerator *)

Module PolygonMsgGenerator.

(** The body of the loop of [translation] at index [i]. *)
Definition translation_step (x y : R) (polygon : option Polygon.t) (i : nat)
  : option Polygon.t :=
  match polygon with
  | None => None
  | Some polygon =>
      match at_index (Polygon.points polygon) i with
      | None => None
      | Some p =>
          Some (Polygon.mk
                  (assign_index (Polygon.points polygon) i
                     (MsgGenerator.toPoint32 (Point32.x p + x) (Point32.y p + y) 0)))
      end
  end.

(** [for (int i = 0; i < polygon.points.size(); ++i)]. *)
Definition translation (polygon : Polygon.t) (x y : R) : option Polygon.t :=
  fold_left (translation_step x y) (seq 0 (Polygon.size polygon)) (Some polygon).

(** The body of the loop of [fromVector] at index [i]. *)
Definition fromVector_step (std_vector : list (list R)) (polygon : option Polygon.t)
  (i : nat) : option Polygon.t :=
  match polygon with
  | None => None
  | Some polygon =>
      match at_index std_vector i with
      | None => None
      | Some row =>
          match at_index row 0, at_index row 1 with
          | Some x, Some y => Some (Polygon.push_back polygon (MsgGenerator.toPoint32 x y 0))
          | _, _ => None
          end
      end
  end.

Definition fromVector (std_vector : list (list R)) : option Polygon.t :=
  fold_left (fromVector_step std_vector) (seq 0 (List.length std_vector))
            (Some Polygon.empty).

Definition toLine (x1 y1 x2 y2 : R) : Polygon.t :=
  let polygon := Polygon.empty in
  let polygon := Polygon.push_back polygon (MsgGenerator.toPoint32 x1 y1 0) in
  let polygon := Polygon.push_back polygon (MsgGenerator.toPoint32 x2 y2 0) in
  polygon.

Definition toRect (x y width height : R) : option Polygon.t :=
  let polygon := Polygon.empty in
  let polygon :=
    Polygon.push_back polygon (MsgGenerator.toPoint32 (width / 2) (height / 2) 0) in
  let polygon :=
    Polygon.push_back polygon (MsgGenerator.toPoint32 (- width / 2) (height / 2) 0) in
  let polygon :=
    Polygon.push_back polygon (MsgGenerator.toPoint32 (- width / 2) (- height / 2) 0) in
  let polygon :=
    Polygon.push_back polygon (MsgGenerator.toPoint32 (width / 2) (- height / 2) 0) in
  translation polygon x y.

(** The body of the loop of [toEllipse] at index [i]: the angle
    [i * 2 * M_PI / (float) resolution] is computed twice. *)
Definition toEllipse_step (width height : R) (resolution : Z)
  (polygon : Eff Polygon.t) (i : nat) : Eff Polygon.t :=
  polygon <- polygon ;;
  ax <- divide (INR i * 2 * PI) (IZR resolution) ;;
  ay <- divide (INR i * 2 * PI) (IZR resolution) ;;
  ret (Polygon.push_back polygon
         (MsgGenerator.toPoint32 (width / 2 * cos ax) (height / 2 * sin ay) 0)).

(** [for (int i = 0; i < resolution; ++i)], then [translation]. *)
Definition toEllipse (x y width height : R) (resolution : Z) : Eff (option Polygon.t) :=
  polygon <- fold_left (toEllipse_step width height resolution)
                       (seq 0 (Z.to_nat resolution)) (ret Polygon.empty) ;;
  ret (translation polygon x y).

Definition toCircle (x y r : R) (resolution : Z) : Eff (option Polygon.t) :=
  toEllipse x y (r * 2) (r * 2) resolution.

End PolygonMsgGenerator.

(** ** feedback_controller/PID.h: class PID *)

Module PID.

Inductive Mode : Type := pPID | sPID | PI_D | I_PD.

Record gain_t : Type := mk_gain { Kp : R; Ki : R; Kd : R }.

Record param_t : Type := mk_param {
  mode : Mode;
  gain : gain_t;
  need_saturation : bool;
  output_min : R;
  output_max : R
}.

(** The members; [_diff0], [_diff1], [_diff2] are the three cells of
    [std::array<T, 3> _diff]. *)
Record t : Type := mk {
  _param : param_t;
  _diff0 : R;
  _diff1 : R;
  _diff2 : R;
  _prev_val : R;
  _prev_target : R;
  _integral : R;
  _output : R
}.

Definition reset (this : t) : t :=
  mk (_param this) 0 0 0 0 0 0 0.

Definition setParam (this : t) (param : param_t) : t :=
  mk param (_diff0 this) (_diff1 this) (_diff2 this) (_prev_val this)
     (_prev_target this) (_integral this) (_output this).

Definition setGain (this : t) (g : gain_t) : t :=
  setParam this (mk_param (mode (_param this)) g (need_saturation (_param this))
                          (output_min (_param this)) (output_max (_param this))).

Definition setMode (this : t) (m : Mode) : t :=
  setParam this (mk_param m (gain (_param this)) (need_saturation (_param this))
                          (output_min (_param this)) (output_max (_param this))).

Definition setSaturation (this : t) (min_v max_v : R) : t :=
  setParam this (mk_param (mode (_param this)) (gain (_param this)) true min_v max_v).

Definition getControlValue (this : t) : R := _output this.

Definition calculate_pPID (this : t) (target now_val dt : R) : Eff R :=
  let p := Kp (gain (_param this)) * _diff0 this in
  let i := Ki (gain (_param this)) * _integral this in
  q <- divide (_diff0 this - _diff1 this) dt ;;
  let d := Kd (gain (_param this)) * q in
  ret (p + i + d).

Definition calculate_sPID (this : t) (target now_val dt : R) : Eff R :=
  let p := Kp (gain (_param this)) * _diff0 this - _diff1 this in
  let i := Ki (gain (_param this)) * _diff0 this * dt in
  d <- divide (Kd (gain (_param this)) * (_diff0 this - 2 * _diff1 this + _diff2 this)) dt ;;
  ret (_prev_val this + p + i + d).

Definition calculate_PI_D (this : t) (target now_val dt : R) : Eff R :=
  let p := Kp (gain (_param this)) * _diff0 this in
  let i := Ki (gain (_param this)) * _integral this in
  q <- divide (now_val - _prev_val this) dt ;;
  let d := - Kd (gain (_param this)) * q in
  ret (p + i + d).

Definition calculate_I_PD (this : t) (target now_val dt : R) : Eff R :=
  let p := - Kp (gain (_param this)) * now_val in
  let i := Ki (gain (_param this)) * _integral this in
  q <- divide (now_val - _prev_val this) dt ;;
  let d := - Kd (gain (_param this)) * q in
  ret (p + i + d).

Definition update (this : t) (target now_val dt : R) : Eff t :=
  let this := mk (_param this) (target - now_val) (_diff1 this) (_diff2 this)
                 (_prev_val this) (_prev_target this) (_integral this) (_output this) in
  let this := mk (_param this) (_diff0 this) (_diff1 this) (_diff2 this)
                 (_prev_val this) (_prev_target this)
                 (_integral this + (_diff0 this + _diff1 this) * (dt / 2))
                 (_output this) in
  out <- match mode (_param this) with
         | pPID => calculate_pPID this target now_val dt
         | sPID => calculate_sPID this target now_val dt
         | PI_D => calculate_PI_D this target now_val dt
         | I_PD => calculate_I_PD this target now_val dt
         end ;;
  let this := mk (_param this) (_diff0 this) (_diff1 this) (_diff2 this)
                 (_prev_val this) (_prev_target this) (_integral this) out in
  let this := mk (_param this) (_diff0 this) (_diff1 this) (_diff1 this)
                 (_prev_val this) (_prev_target this) (_integral this) (_output this) in
  let this := mk (_param this) (_diff0 this) (_diff0 this) (_diff2 this)
                 (_prev_val this) (_prev_target this) (_integral this) (_output this) in
  let this := mk (_param this) (_diff0 this) (_diff1 this) (_diff2 this)
                 (_prev_val this) target (_integral this) (_output this) in
  let this := mk (_param this) (_diff0 this) (_diff1 this) (_diff2 this)
                 now_val (_prev_target this) (_integral this) (_output this) in
  let this :=
    if need_saturation (_param this) then
      mk (_param this) (_diff0 this) (_diff1 this) (_diff2 this)
         (_prev_val this) (_prev_target this) (_integral this)
         (if need_saturation (_param this)
          then Generic.guard (_output this) (output_min (_param this))
                             (output_max (_param this))
          else _output this)
    else this in
  ret this.

(** [update] called once per sample [(target, now_val, dt)], in order. *)
Fixpoint run (this : t) (samples : list (R * R * R)) : Eff t :=
  match samples with
  | [] => ret this
  | (target, now_val, dt) :: rest =>
      this <- update this target now_val dt ;;
      run this rest
  end.

End PID.

(** ** angles/angles.h: class Angles *)

(** [fmod (x, y)] on the reals: [x - n * y] for the quotient [x / y]
    truncated towards zero to the integer [n]. *)
Definition Rleb (a b : R) : bool := if Rle_dec a b then true else false.

Definition truncate (r : R) : Z :=
  if Rle_dec 0 r then Int_part r else (- Int_part (- r))%Z.

Definition fmod (x y : R) : R := x - IZR (truncate (x / y)) * y.

Module Angles.

Definition radians (degrees : R) : R := degrees * PI / 180.
Definition degrees (radians : R) : R := radians * 180 / PI.

Definition normalizePositive (angle : R) : R :=
  let result := fmod angle (2 * PI) in
  if Rltb result 0 then result + 2 * PI else result.

Definition normalize (angle : R) : R :=
  let result := fmod (angle + PI) (2 * PI) in
  if Rleb result 0 then result + PI else result - PI.

Definition getShortestAngle (from to : R) : R := normalize (to - from).

Definition complement (angle : R) : R :=
  let angle :=
    if Rgtb angle (2 * PI) || Rltb angle (- 2 * PI) then fmod angle (2 * PI) else angle in
  if Rltb angle 0 then 2 * PI + angle
  else if Rgtb angle 0 then - 2 * PI + angle
  else 2 * PI.

End Angles.

(** * Reference definitions

    The formulas of the specification, against which the code above is
    compared. *)

(** The rotation the specification asks for, from the original components. *)
Definition spec_rotation_x (x y angle : R) : R := x * cos angle - y * sin angle.
Definition spec_rotation_y (x y angle : R) : R := x * sin angle + y * cos angle.

(** The point [line1.start + a * (cross(b, line2.start - line1.start) / cross(b, a))]. *)
Definition spec_intersection_point (line1 line2 : Line2D.t) : Pose2D.t :=
  let a := Pose2D.sub (Line2D.end_ line1) (Line2D.start line1) in
  let b := Pose2D.sub (Line2D.end_ line2) (Line2D.start line2) in
  Pose2D.add (Line2D.start line1)
    (Pose2D.mul a
       (Pose2D.getCross b (Pose2D.sub (Line2D.start line2) (Line2D.start line1))
        / Pose2D.getCross b a)).

Definition direction_cross (line1 line2 : Line2D.t) : R :=
  Pose2D.getCross (Pose2D.sub (Line2D.end_ line1) (Line2D.start line1))
                  (Pose2D.sub (Line2D.end_ line2) (Line2D.start line2)).

(** The containment rule of one axis, in the words of the specification:
    [s] and [e] are the coordinates of the two end points, [c] the point's. *)
Definition spec_axis_within (s e c : R) : Prop :=
  (Rmax s e - Rmin s e < Line2D.eps /\ Rabs (c - Rmax s e) <= Line2D.eps)
  \/ (Line2D.eps <= Rmax s e - Rmin s e /\ Rmin s e < c /\ c < Rmax s e).

Definition spec_collinear (L : Line2D.t) (p : Pose2D.t) : Prop :=
  Rabs (Pose2D.getCross (Pose2D.sub (Line2D.end_ L) (Line2D.start L))
                        (Pose2D.sub p (Line2D.start L))) < Line2D.eps.

(** The coefficients of [a x + b y + c = 0] in the words of the
    specification. *)
Definition spec_slope (line : Line2D.t) : R :=
  (Pose2D.y (Line2D.end_ line) - Pose2D.y (Line2D.start line))
  / (Pose2D.x (Line2D.end_ line) - Pose2D.x (Line2D.start line)).

Definition spec_line_coefficients (line : Line2D.t) : R * R * R :=
  if Rgt_dec (Rabs (Pose2D.x (Line2D.start line) - Pose2D.x (Line2D.end_ line))) Line2D.eps
  then (spec_slope line, -1,
        - spec_slope line * Pose2D.x (Line2D.start line) + Pose2D.y (Line2D.start line))
  else (1, 0, - Pose2D.x (Line2D.start line)).

(** [|a p.x + b p.y + c| / sqrt (a^2 + b^2)]. *)
Definition spec_perpendicular_distance (abc : R * R * R) (pose : Pose2D.t) : R :=
  let '(a, b, c) := abc in
  Rabs (a * Pose2D.x pose + b * Pose2D.y pose + c) / sqrt (a * a + b * b).

(** The foot of the perpendicular from [pose], by the projection formula. *)
Definition spec_perpendicular_foot (abc : R * R * R) (pose : Pose2D.t) : Pose2D.t :=
  let '(a, b, c) := abc in
  let p := Pose2D.x pose in
  let q := Pose2D.y pose in
  Pose2D.mk ((p * (a * a + b * b) - a * (a * p + b * q + c)) / (a * a + b * b))
            ((q * (a * a + b * b) - b * (a * p + b * q + c)) / (a * a + b * b))
            0.

(** The output of [PID::update] before the saturation, for the error [e] of
    the current sample and the integral [i] already updated. *)
Definition spec_pid_raw (s : PID.t) (e i now_val dt : R) : R :=
  let g := PID.gain (PID._param s) in
  match PID.mode (PID._param s) with
  | PID.pPID => PID.Kp g * e + PID.Ki g * i + PID.Kd g * ((e - PID._diff1 s) / dt)
  | PID.sPID =>
      PID._prev_val s + (PID.Kp g * e - PID._diff1 s) + PID.Ki g * e * dt
      + PID.Kd g * (e - 2 * PID._diff1 s + PID._diff2 s) / dt
  | PID.PI_D =>
      PID.Kp g * e + PID.Ki g * i + - PID.Kd g * ((now_val - PID._prev_val s) / dt)
  | PID.I_PD =>
      - PID.Kp g * now_val + PID.Ki g * i
      + - PID.Kd g * ((now_val - PID._prev_val s) / dt)
  end.

(** The trapezoid added to the integral by one sample. *)
Definition spec_pid_integral (s : PID.t) (e dt : R) : R :=
  PID._integral s + (e + PID._diff1 s) * (dt / 2).

(** A point moved by [(x, y)] and put on the plane [z = 0]. *)
Definition spec_moved (x y : R) (p : Point32.t) : Point32.t :=
  Point32.mk (Point32.x p + x) (Point32.y p + y) 0.

(** The vertex of index [i] of the ellipse of [resolution] vertices, before
    it is moved to the centre. *)
Definition spec_ellipse_vertex (width height : R) (resolution : Z) (i : nat) : Point32.t :=
  Point32.mk (width / 2 * cos (INR i * 2 * PI / IZR resolution))
             (height / 2 * sin (INR i * 2 * PI / IZR resolution))
             0.

(** * Properties *)

(** ** Boolean comparisons and the effect type *)

Lemma Rltb_true (a b : R) : Rltb a b = true <-> a < b.
Proof. unfold Rltb. destruct (Rlt_dec a b); split; intros; try easy. Qed.

Lemma Rltb_false (a b : R) : Rltb a b = false <-> b <= a.
Proof.
  unfold Rltb. destruct (Rlt_dec a b); split; intros; try easy; lra.
Qed.

Lemma Rgtb_true (a b : R) : Rgtb a b = true <-> a > b.
Proof. unfold Rgtb. rewrite Rltb_true. lra. Qed.

Lemma Rgtb_false (a b : R) : Rgtb a b = false <-> a <= b.
Proof. unfold Rgtb. rewrite Rltb_false. lra. Qed.

Lemma Reqb_true (a b : R) : Reqb a b = true <-> a = b.
Proof. unfold Reqb. destruct (Req_dec_T a b); split; intros; try easy. Qed.

Lemma Reqb_false (a b : R) : Reqb a b = false <-> a <> b.
Proof. unfold Reqb. destruct (Req_dec_T a b); split; intros; try easy. Qed.

Lemma Reqb_refl (a : R) : Reqb a a = true.
Proof. now apply Reqb_true. Qed.

Lemma divide_nonzero (a b : R) : b <> 0 -> divide a b = ret (a / b).
Proof. intros Hb. unfold divide. now destruct (Req_dec_T b 0). Qed.

Lemma divide_zero (a : R) : divide a 0 = None.
Proof. unfold divide. now destruct (Req_dec_T 0 0). Qed.

Lemma bind_ret {A B : Type} (a : A) (k : A -> Eff B) : bind (ret a) k = k a.
Proof. unfold bind, ret. destruct (k a) as [[b out]|]; reflexivity. Qed.

Lemma eps_pos : 0 < Line2D.eps.
Proof. unfold Line2D.eps. lra. Qed.

(** Decides every comparison of closed terms met while running the code on
    numerals. *)
Ltac decide_cmp :=
  repeat match goal with
    | |- context [Rltb ?a ?b] =>
        first [ rewrite (proj2 (Rltb_true a b)) by (unfold Line2D.eps; lra)
              | rewrite (proj2 (Rltb_false a b)) by (unfold Line2D.eps; lra) ]
    | |- context [Rgtb ?a ?b] =>
        first [ rewrite (proj2 (Rgtb_true a b)) by (unfold Line2D.eps; lra)
              | rewrite (proj2 (Rgtb_false a b)) by (unfold Line2D.eps; lra) ]
    | |- context [Reqb ?a ?b] =>
        first [ rewrite (proj2 (Reqb_true a b)) by lra
              | rewrite (proj2 (Reqb_false a b)) by lra ]
    end.

(** ** Vector2 and Pose2D: the pairwise operators *)

Lemma Vector2_eqb_spec (v w : Vector2.t) :
  Vector2.eqb v w = true <-> Vector2.x v = Vector2.x w /\ Vector2.y v = Vector2.y w.
Proof. unfold Vector2.eqb. rewrite andb_true_iff, !Reqb_true. tauto. Qed.

Lemma Vector2_eqb_eq (v w : Vector2.t) : Vector2.eqb v w = true <-> v = w.
Proof.
  rewrite Vector2_eqb_spec. destruct v, w. cbn [Vector2.x Vector2.y].
  split; [intros [-> ->]; reflexivity | intros H; injection H; auto].
Qed.

Lemma getCross_antisymmetric (a b : Pose2D.t) :
  Pose2D.getCross a b = - Pose2D.getCross b a.
Proof. unfold Pose2D.getCross. ring. Qed.

Lemma getDot_symmetric (a b : Pose2D.t) : Pose2D.getDot a b = Pose2D.getDot b a.
Proof. unfold Pose2D.getDot. ring. Qed.

Lemma getDistance_symmetric (a b : Pose2D.t) :
  Pose2D.getDistance a b = Pose2D.getDistance b a.
Proof.
  unfold Pose2D.getDistance, Pose2D.magnitude, Pose2D.sqrMagnitude, Pose2D.sub.
  cbn [Pose2D.x Pose2D.y]. f_equal. ring.
Qed.

(** The orientation plays no part in the pairwise operators. *)
Lemma pairwise_operators_ignore_theta (a b : Pose2D.t) (ta tb : R) :
  Pose2D.getDot (Pose2D.set_theta a ta) (Pose2D.set_theta b tb) = Pose2D.getDot a b
  /\ Pose2D.getCross (Pose2D.set_theta a ta) (Pose2D.set_theta b tb) = Pose2D.getCross a b
  /\ Pose2D.getDistance (Pose2D.set_theta a ta) (Pose2D.set_theta b tb)
     = Pose2D.getDistance a b.
Proof. repeat split. Qed.

(** [normalize] on the zero vector divides by a zero length. *)
Lemma Vector2_normalize_zero : Vector2.normalize (Vector2.mk 0 0) = None.
Proof.
  unfold Vector2.normalize, Vector2.length, Vector2.magnitude, Vector2.sqrMagnitude.
  cbn [Vector2.x Vector2.y]. replace (0 * 0 + 0 * 0) with 0 by ring.
  rewrite sqrt_0. unfold Vector2.div_assign. now rewrite divide_zero.
Qed.

(** ** Pose2D: equality *)

(** What [operator==] computes: the receiver's orientation is compared with
    the argument's [y]. *)
Lemma Pose2D_eqb_spec (p q : Pose2D.t) :
  Pose2D.eqb p q = true <->
  Pose2D.x p = Pose2D.x q /\ Pose2D.y p = Pose2D.y q /\ Pose2D.theta p = Pose2D.y q.
Proof.
  unfold Pose2D.eqb. rewrite !andb_true_iff, !Reqb_true. tauto.
Qed.

Lemma Pose2D_neqb_negb (p q : Pose2D.t) : Pose2D.neqb p q = negb (Pose2D.eqb p q).
Proof. reflexivity. Qed.

(** C1 (observed behaviour at a failing input): the pose [(0, 0, 1)] is
    rebuilt from its own fields, yet [operator==] answers false and
    [operator!=] answers true on the two copies, because the orientation [1]
    is compared with the argument's [y = 0]; and the poses [(0, 0, 0)] and
    [(0, 0, 5)], which differ in orientation, are reported equal. *)
Theorem Pose2D_eq_compares_theta_with_y :
  let p := Pose2D.mk 0 0 1 in
  Pose2D.eqb (Pose2D.mk (Pose2D.x p) (Pose2D.y p) (Pose2D.theta p)) p = false
  /\ Pose2D.neqb (Pose2D.mk (Pose2D.x p) (Pose2D.y p) (Pose2D.theta p)) p = true
  /\ Pose2D.eqb (Pose2D.mk 0 0 0) (Pose2D.mk 0 0 5) = true
  /\ Pose2D.neqb (Pose2D.mk 0 0 0) (Pose2D.mk 0 0 5) = false.
Proof.
  cbv zeta. unfold Pose2D.neqb, Pose2D.eqb. cbn [Pose2D.x Pose2D.y Pose2D.theta].
  decide_cmp. repeat split; reflexivity.
Qed.

(** ** Rotation *)

Lemma Pose2D_rotate_formula (p : Pose2D.t) (angle : R) :
  Pose2D.rotate p angle =
  Pose2D.mk (spec_rotation_x (Pose2D.x p) (Pose2D.y p) angle)
            (spec_rotation_y (Pose2D.x p) (Pose2D.y p) angle)
            (Pose2D.theta p).
Proof. reflexivity. Qed.

Lemma Pose2D_rotate_zero (p : Pose2D.t) : Pose2D.rotate p 0 = p.
Proof.
  destruct p as [px py pt]. unfold Pose2D.rotate, Pose2D.set_x, Pose2D.set_y.
  cbn [Pose2D.x Pose2D.y Pose2D.theta]. rewrite cos_0, sin_0. f_equal; lra.
Qed.

Lemma Pose2D_rotate_inverse (p : Pose2D.t) (a : R) :
  Pose2D.rotate (Pose2D.rotate p a) (- a) = p.
Proof.
  destruct p as [px py pt]. unfold Pose2D.rotate, Pose2D.set_x, Pose2D.set_y.
  cbn [Pose2D.x Pose2D.y Pose2D.theta]. rewrite cos_neg, sin_neg.
  pose proof (sin2_cos2 a) as H. unfold Rsqr in H.
  f_equal.
  - replace px with (px * (sin a * sin a + cos a * cos a)) at 3 by (rewrite H; lra).
    ring.
  - replace py with (py * (sin a * sin a + cos a * cos a)) at 3 by (rewrite H; lra).
    ring.
Qed.

(** What [Vector2::rotate] computes: the new [y] is built from the new [x]. *)
Lemma Vector2_rotate_computes (v : Vector2.t) (angle : R) :
  Vector2.rotate v angle =
  let x' := spec_rotation_x (Vector2.x v) (Vector2.y v) angle in
  Vector2.mk x' (x' * sin angle + Vector2.y v * cos angle).
Proof. reflexivity. Qed.

Lemma Vector2_rotate_zero (v : Vector2.t) : Vector2.rotate v 0 = v.
Proof.
  destruct v as [vx vy]. unfold Vector2.rotate, Vector2.set_x, Vector2.set_y.
  cbn [Vector2.x Vector2.y]. rewrite cos_0, sin_0. f_equal; lra.
Qed.

(** [Vector2::rotate] agrees with the rotation exactly when the overwritten
    [x] makes no difference: the sine is zero or [x] is not changed. *)
Lemma Vector2_rotate_agrees_iff (v : Vector2.t) (angle : R) :
  Vector2.rotate v angle
  = Vector2.mk (spec_rotation_x (Vector2.x v) (Vector2.y v) angle)
               (spec_rotation_y (Vector2.x v) (Vector2.y v) angle)
  <-> sin angle = 0 \/ spec_rotation_x (Vector2.x v) (Vector2.y v) angle = Vector2.x v.
Proof.
  rewrite Vector2_rotate_computes. cbv zeta. unfold spec_rotation_y.
  set (x' := spec_rotation_x (Vector2.x v) (Vector2.y v) angle).
  split.
  - intros H. injection H as H.
    assert (Hm : (x' - Vector2.x v) * sin angle = 0) by lra.
    apply Rmult_integral in Hm. destruct Hm; [right | left]; lra.
  - intros [Hs | Hx]; f_equal; [rewrite Hs | rewrite Hx]; lra.
Qed.

(** C2 (observed behaviour at a failing input): rotating the vector [(1, 0)]
    by a quarter turn with [Vector2::rotate] gives [(0, 0)] where the rotation
    formula gives [(0, 1)], and rotating back by the opposite angle does not
    restore [(1, 0)]; [Pose2D::rotate] on the same position gives [(0, 1)]. *)
Theorem Vector2_rotate_reads_overwritten_x :
  let v := Vector2.mk 1 0 in
  let a := PI / 2 in
  Vector2.rotate v a = Vector2.mk 0 0
  /\ Vector2.mk (spec_rotation_x (Vector2.x v) (Vector2.y v) a)
                (spec_rotation_y (Vector2.x v) (Vector2.y v) a) = Vector2.mk 0 1
  /\ Vector2.rotate (Vector2.rotate v a) (- a) <> v
  /\ Pose2D.rotate (Pose2D.mk 1 0 0) a = Pose2D.mk 0 1 0.
Proof.
  cbv zeta.
  assert (Hrot : Vector2.rotate (Vector2.mk 1 0) (PI / 2) = Vector2.mk 0 0).
  { unfold Vector2.rotate, Vector2.set_x, Vector2.set_y. cbn [Vector2.x Vector2.y].
    rewrite cos_PI2, sin_PI2. f_equal; lra. }
  repeat split.
  - exact Hrot.
  - unfold spec_rotation_x, spec_rotation_y. cbn [Vector2.x Vector2.y].
    rewrite cos_PI2, sin_PI2. f_equal; lra.
  - rewrite Hrot. unfold Vector2.rotate, Vector2.set_x, Vector2.set_y.
    cbn [Vector2.x Vector2.y]. intros H. injection H as Hx _. lra.
  - unfold Pose2D.rotate, Pose2D.set_x, Pose2D.set_y.
    cbn [Pose2D.x Pose2D.y Pose2D.theta]. rewrite cos_PI2, sin_PI2. f_equal; lra.
Qed.

(** ** Pose2D: division by a non-zero scalar *)

Lemma Pose2D_div_nonzero (p : Pose2D.t) (s : R) :
  s <> 0 ->
  Pose2D.div p s = ret (Pose2D.mk (Pose2D.x p / s) (Pose2D.y p / s) (Pose2D.theta p / s)).
Proof.
  intros Hs. unfold Pose2D.div. rewrite !divide_nonzero by exact Hs.
  now rewrite !bind_ret.
Qed.

(** ** Line2D: intersection of two lines *)

Lemma getIntersection_parallel (line1 line2 : Line2D.t) :
  Rabs (direction_cross line1 line2) <= Line2D.eps ->
  Line2D.getIntersection line1 line2 = ret (false, Pose2D.mk 0 0 0).
Proof.
  intros H. unfold Line2D.getIntersection. fold (direction_cross line1 line2).
  now rewrite (proj2 (Rgtb_false _ _) H).
Qed.

Lemma getIntersection_crossing (line1 line2 : Line2D.t) :
  Line2D.eps < Rabs (direction_cross line1 line2) ->
  Line2D.getIntersection line1 line2 = ret (true, spec_intersection_point line1 line2).
Proof.
  intros H. unfold Line2D.getIntersection. fold (direction_cross line1 line2).
  rewrite (proj2 (Rgtb_true _ _)) by lra.
  cbv zeta.
  set (a := Pose2D.sub (Line2D.end_ line1) (Line2D.start line1)).
  set (b := Pose2D.sub (Line2D.end_ line2) (Line2D.start line2)).
  assert (Hba : Pose2D.getCross b a <> 0).
  { assert (Hsw : Pose2D.getCross b a = - direction_cross line1 line2)
      by (subst a b; unfold direction_cross, Pose2D.getCross; ring).
    pose proof eps_pos as Heps. intros Hz.
    assert (Hc : direction_cross line1 line2 = 0) by lra.
    rewrite Hc, Rabs_R0 in H. lra. }
  rewrite Pose2D_div_nonzero by exact Hba. rewrite bind_ret.
  unfold spec_intersection_point. fold a b.
  do 2 f_equal. unfold Pose2D.add, Pose2D.mul. cbn [Pose2D.x Pose2D.y Pose2D.theta].
  f_equal; field; exact Hba.
Qed.

Lemma getIntersection_defined (line1 line2 : Line2D.t) :
  exists r, Line2D.getIntersection line1 line2 = ret r.
Proof.
  destruct (Rle_dec (Rabs (direction_cross line1 line2)) Line2D.eps) as [Hle | Hgt].
  - eexists. now apply getIntersection_parallel.
  - eexists. apply getIntersection_crossing. lra.
Qed.

(** C3: [getIntersection] answers [(false, (0,0,0))] exactly when the cross
    product of the two directions is at most [eps] in magnitude, and
    [(true, line1.start + a * (cross(b, line2.start - line1.start) / cross(b, a)))]
    exactly when it is larger; it is defined in both cases (no division by
    zero, nothing written); the parallel segments (0,0)-(4,0) and (0,1)-(4,1)
    give the flag false. *)
Theorem Line2D_getIntersection_cases (line1 line2 : Line2D.t) :
  (Line2D.getIntersection line1 line2 = ret (false, Pose2D.mk 0 0 0)
   <-> Rabs (direction_cross line1 line2) <= Line2D.eps)
  /\ (Line2D.getIntersection line1 line2 = ret (true, spec_intersection_point line1 line2)
      <-> Rabs (direction_cross line1 line2) > Line2D.eps)
  /\ (exists r, Line2D.getIntersection line1 line2 = ret r)
  /\ Line2D.getIntersection (Line2D.of_coords 0 0 4 0) (Line2D.of_coords 0 1 4 1)
     = ret (false, Pose2D.mk 0 0 0).
Proof.
  destruct (Rle_dec (Rabs (direction_cross line1 line2)) Line2D.eps) as [Hle | Hgt].
  - pose proof (getIntersection_parallel _ _ Hle) as E.
    repeat split; intros; try assumption; try lra.
    + rewrite E in H. discriminate.
    + eexists; exact E.
    + apply getIntersection_parallel. unfold direction_cross, Pose2D.getCross.
      cbn. rewrite Rabs_right by lra. pose proof eps_pos. lra.
  - assert (Hlt : Line2D.eps < Rabs (direction_cross line1 line2)) by lra.
    pose proof (getIntersection_crossing _ _ Hlt) as E.
    repeat split; intros; try assumption; try lra.
    + rewrite E in H. discriminate.
    + eexists; exact E.
    + apply getIntersection_parallel. unfold direction_cross, Pose2D.getCross.
      cbn. rewrite Rabs_right by lra. pose proof eps_pos. lra.
Qed.

(** ** Line2D: containment in the segment *)

Lemma extent_nonneg (s e : R) : 0 <= Rmax s e - Rmin s e.
Proof. unfold Rmax, Rmin. destruct (Rle_dec s e); lra. Qed.

(** One axis of the test in [isPointOnLineWithinRange]. *)
Lemma axis_test (s e c : R) (result : bool) :
  (if Rltb (Rabs (Rmax s e - Rmin s e)) Line2D.eps then
     if Rgtb (Rabs (Rmax s e - c)) Line2D.eps then false else result
   else
     if negb (Rltb (Rmin s e) c && Rltb c (Rmax s e)) then false else result) = true
  <-> result = true /\ spec_axis_within s e c.
Proof.
  unfold spec_axis_within.
  rewrite (Rabs_pos_eq _ (extent_nonneg s e)), (Rabs_minus_sym (Rmax s e) c).
  destruct (Rltb (Rmax s e - Rmin s e) Line2D.eps) eqn:Hext.
  - apply Rltb_true in Hext.
    destruct (Rgtb (Rabs (c - Rmax s e)) Line2D.eps) eqn:Hc.
    + apply Rgtb_true in Hc. split; [discriminate | intros [_ [[_ H] | [H _]]]; lra].
    + apply Rgtb_false in Hc. split; [intros ->; auto | tauto].
  - apply Rltb_false in Hext.
    destruct (Rltb (Rmin s e) c) eqn:Hlo; destruct (Rltb c (Rmax s e)) eqn:Hhi;
      cbn [andb negb];
      try apply Rltb_true in Hlo; try apply Rltb_false in Hlo;
      try apply Rltb_true in Hhi; try apply Rltb_false in Hhi.
    + split; [intros ->; auto | tauto].
    + split; [discriminate | intros [_ [[H _] | [_ [_ H]]]]; lra].
    + split; [discriminate | intros [_ [[H _] | [_ [H _]]]]; lra].
    + split; [discriminate | intros [_ [[H _] | [_ [H _]]]]; lra].
Qed.

Lemma isPointOnLine_collinear (L : Line2D.t) (p : Pose2D.t) :
  Line2D.isPointOnLine L p = true <-> spec_collinear L p.
Proof. unfold Line2D.isPointOnLine, spec_collinear. apply Rltb_true. Qed.

Lemma isPointOnLineWithinRange_iff (L : Line2D.t) (p : Pose2D.t) :
  Line2D.isPointOnLineWithinRange L p = true
  <-> spec_collinear L p
      /\ spec_axis_within (Pose2D.x (Line2D.start L)) (Pose2D.x (Line2D.end_ L)) (Pose2D.x p)
      /\ spec_axis_within (Pose2D.y (Line2D.start L)) (Pose2D.y (Line2D.end_ L)) (Pose2D.y p).
Proof.
  unfold Line2D.isPointOnLineWithinRange.
  destruct (Line2D.isPointOnLine L p) eqn:Hon.
  - apply isPointOnLine_collinear in Hon. cbv zeta.
    rewrite axis_test, axis_test. tauto.
  - split; [discriminate |].
    intros [Hc _]. apply isPointOnLine_collinear in Hc. congruence.
Qed.

(** On an axis whose extent is at least [eps] neither end coordinate passes. *)
Lemma axis_within_endpoint (s e : R) :
  Line2D.eps <= Rmax s e - Rmin s e -> ~ spec_axis_within s e s /\ ~ spec_axis_within s e e.
Proof.
  intros Hext. unfold spec_axis_within. revert Hext. unfold Rmax, Rmin.
  destruct (Rle_dec s e); intros Hext; split; intros [[H _] | [_ [H1 H2]]]; lra.
Qed.

Lemma axis_within_collapsed (s c : R) :
  spec_axis_within s s c <-> Rabs (c - s) <= Line2D.eps.
Proof.
  unfold spec_axis_within, Rmax, Rmin. pose proof eps_pos.
  destruct (Rle_dec s s); split; intros; try lra; intuition lra.
Qed.

Lemma of_coords_fields (x1 y1 x2 y2 : R) :
  Line2D.of_coords x1 y1 x2 y2 = Line2D.mk (Pose2D.mk x1 y1 0) (Pose2D.mk x2 y2 0).
Proof. reflexivity. Qed.

(** Closes goals about [Rabs], [Rmin] and [Rmax] of numerals. *)
Ltac real_cases :=
  unfold Rabs, Rmax, Rmin, Line2D.eps;
  repeat match goal with
    | |- context [Rcase_abs ?a] => destruct (Rcase_abs a)
    | |- context [Rle_dec ?a ?b] => destruct (Rle_dec a b)
    end;
  try lra.

Lemma segment_containment_examples :
  Line2D.isPointOnLineWithinRange (Line2D.of_coords 0 0 4 4) (Pose2D.mk 2 2 0) = true
  /\ Line2D.isPointOnLineWithinRange (Line2D.of_coords 0 0 4 4) (Pose2D.mk 4 4 0) = false
  /\ Line2D.isPointOnLineWithinRange (Line2D.of_coords 1 0 1 5) (Pose2D.mk 1 1 0) = true.
Proof.
  split; [| split].
  - apply isPointOnLineWithinRange_iff. rewrite of_coords_fields.
    unfold spec_collinear, spec_axis_within, Pose2D.sub, Pose2D.getCross.
    cbn [Pose2D.x Pose2D.y Pose2D.theta Line2D.start Line2D.end_].
    repeat split; try right; real_cases.
  - apply not_true_is_false. rewrite isPointOnLineWithinRange_iff, of_coords_fields.
    cbn [Pose2D.x Pose2D.y Pose2D.theta Line2D.start Line2D.end_].
    intros (_ & [[H _] | (_ & _ & H)] & _); revert H; real_cases.
  - apply isPointOnLineWithinRange_iff. rewrite of_coords_fields.
    unfold spec_collinear, Pose2D.sub, Pose2D.getCross.
    cbn [Pose2D.x Pose2D.y Pose2D.theta Line2D.start Line2D.end_].
    split; [real_cases | split].
    + apply axis_within_collapsed. real_cases.
    + right. real_cases.
Qed.

(** C5: [isPointOnLineWithinRange] holds exactly when the point is spec_collinear
    with the line ([|cross(end - start, p - start)| < eps]) and, on each of the
    two axes independently, either the extent is below [eps] and the point's
    coordinate is within [eps] (closed) of the common coordinate, or the
    extent is at least [eps] and the coordinate lies strictly between the
    minimum and the maximum; hence an end point of a segment whose x-extent or
    y-extent is at least [eps] is rejected. On the segment (0,0)-(4,4) the
    point (2,2) is accepted and the end point (4,4) is rejected; on the
    vertical segment (1,0)-(1,5) the point (1,1) is accepted. *)
Theorem Line2D_isPointOnLineWithinRange_spec (L : Line2D.t) (p : Pose2D.t) :
  (Line2D.isPointOnLineWithinRange L p = true
   <-> Rabs (Pose2D.getCross (Pose2D.sub (Line2D.end_ L) (Line2D.start L))
                             (Pose2D.sub p (Line2D.start L))) < Line2D.eps
       /\ spec_axis_within (Pose2D.x (Line2D.start L)) (Pose2D.x (Line2D.end_ L)) (Pose2D.x p)
       /\ spec_axis_within (Pose2D.y (Line2D.start L)) (Pose2D.y (Line2D.end_ L)) (Pose2D.y p))
  /\ (Line2D.eps <= Rabs (Pose2D.x (Line2D.end_ L) - Pose2D.x (Line2D.start L))
      \/ Line2D.eps <= Rabs (Pose2D.y (Line2D.end_ L) - Pose2D.y (Line2D.start L)) ->
      Line2D.isPointOnLineWithinRange L (Line2D.start L) = false
      /\ Line2D.isPointOnLineWithinRange L (Line2D.end_ L) = false)
  /\ Line2D.isPointOnLineWithinRange (Line2D.of_coords 0 0 4 4) (Pose2D.mk 2 2 0) = true
  /\ Line2D.isPointOnLineWithinRange (Line2D.of_coords 0 0 4 4) (Pose2D.mk 4 4 0) = false
  /\ Line2D.isPointOnLineWithinRange (Line2D.of_coords 1 0 1 5) (Pose2D.mk 1 1 0) = true.
Proof.
  split; [apply isPointOnLineWithinRange_iff |].
  split; [| exact segment_containment_examples].
  intros Hext.
  assert (Hax : forall s e, Rabs (e - s) = Rmax s e - Rmin s e).
  { intros s e. unfold Rmax, Rmin, Rabs.
    destruct (Rle_dec s e); destruct (Rcase_abs (e - s)); lra. }
  rewrite !Hax in Hext.
  split; apply not_true_is_false; rewrite isPointOnLineWithinRange_iff;
    intros [_ [Hx Hy]]; destruct Hext as [Hext | Hext];
    pose proof (axis_within_endpoint _ _ Hext) as [Hs He]; tauto.
Qed.

(** ** Line2D: intersection of two segments *)

Lemma getIntersectionWithinRange_computes (line1 line2 : Line2D.t) :
  exists (b : bool) (p : Pose2D.t),
    Line2D.getIntersection line1 line2 = ret (b, p)
    /\ Line2D.getIntersectionWithinRange line1 line2
       = ret (b && Line2D.isPointOnLineWithinRange line1 p
                && Line2D.isPointOnLineWithinRange line2 p, p).
Proof.
  unfold Line2D.getIntersectionWithinRange.
  destruct (Rle_dec (Rabs (direction_cross line1 line2)) Line2D.eps) as [Hle | Hgt].
  - rewrite (getIntersection_parallel _ _ Hle), bind_ret.
    exists false, (Pose2D.mk 0 0 0). split; reflexivity.
  - rewrite (getIntersection_crossing line1 line2) by lra. rewrite bind_ret.
    exists true, (spec_intersection_point line1 line2). split; reflexivity.
Qed.

Lemma crossing_segments_example :
  Line2D.getIntersectionWithinRange (Line2D.of_coords 0 0 4 4) (Line2D.of_coords 0 4 4 0)
  = ret (true, Pose2D.mk 2 2 0).
Proof.
  assert (Hp : spec_intersection_point (Line2D.of_coords 0 0 4 4) (Line2D.of_coords 0 4 4 0)
               = Pose2D.mk 2 2 0).
  { rewrite !of_coords_fields. unfold spec_intersection_point, Pose2D.add, Pose2D.mul,
      Pose2D.sub, Pose2D.getCross. cbn [Pose2D.x Pose2D.y Pose2D.theta Line2D.start Line2D.end_].
    f_equal; field_simplify; lra. }
  unfold Line2D.getIntersectionWithinRange.
  rewrite getIntersection_crossing, Hp, bind_ret.
  - assert (H1 : Line2D.isPointOnLineWithinRange (Line2D.of_coords 0 0 4 4)
                   (Pose2D.mk 2 2 0) = true).
    { apply isPointOnLineWithinRange_iff. rewrite of_coords_fields.
      unfold spec_collinear, spec_axis_within, Pose2D.sub, Pose2D.getCross.
      cbn [Pose2D.x Pose2D.y Pose2D.theta Line2D.start Line2D.end_].
      repeat split; try right; real_cases. }
    assert (H2 : Line2D.isPointOnLineWithinRange (Line2D.of_coords 0 4 4 0)
                   (Pose2D.mk 2 2 0) = true).
    { apply isPointOnLineWithinRange_iff. rewrite of_coords_fields.
      unfold spec_collinear, spec_axis_within, Pose2D.sub, Pose2D.getCross.
      cbn [Pose2D.x Pose2D.y Pose2D.theta Line2D.start Line2D.end_].
      repeat split; try right; real_cases. }
    now rewrite H1, H2.
  - rewrite !of_coords_fields. unfold direction_cross, Pose2D.sub, Pose2D.getCross.
    cbn [Pose2D.x Pose2D.y Pose2D.theta Line2D.start Line2D.end_]. real_cases.
Qed.

(** Segments on one line with disjoint ranges: the lines count as parallel. *)
Lemma collinear_segments_example :
  Line2D.getIntersectionWithinRange (Line2D.of_coords 0 0 2 0) (Line2D.of_coords 5 0 7 0)
  = ret (false, Pose2D.mk 0 0 0).
Proof.
  unfold Line2D.getIntersectionWithinRange.
  rewrite getIntersection_parallel; [reflexivity |].
  rewrite !of_coords_fields. unfold direction_cross, Pose2D.sub, Pose2D.getCross.
  cbn [Pose2D.x Pose2D.y Pose2D.theta Line2D.start Line2D.end_]. real_cases.
Qed.

(** C4: [getIntersectionWithinRange] reports true exactly when
    [getIntersection] reports true and the point it computed passes
    [isPointOnLineWithinRange] on both segments, and false otherwise (the
    reported point is the one of [getIntersection]); for the segments
    (0,0)-(4,4) and (0,4)-(4,0) it reports true with the point (2,2). *)
Theorem Line2D_getIntersectionWithinRange_spec (line1 line2 : Line2D.t) :
  (forall p : Pose2D.t,
      Line2D.getIntersectionWithinRange line1 line2 = ret (true, p)
      <-> Line2D.getIntersection line1 line2 = ret (true, p)
          /\ Line2D.isPointOnLineWithinRange line1 p = true
          /\ Line2D.isPointOnLineWithinRange line2 p = true)
  /\ ((exists p, Line2D.getIntersectionWithinRange line1 line2 = ret (true, p))
      \/ (exists p, Line2D.getIntersectionWithinRange line1 line2 = ret (false, p)))
  /\ Line2D.getIntersectionWithinRange (Line2D.of_coords 0 0 4 4) (Line2D.of_coords 0 4 4 0)
     = ret (true, Pose2D.mk 2 2 0).
Proof.
  destruct (getIntersectionWithinRange_computes line1 line2) as (b & q & Hi & Hr).
  split; [| split; [| exact crossing_segments_example]].
  - intros p. rewrite Hi, Hr. split.
    + intros H. injection H as Hb Hq. subst q.
      apply andb_true_iff in Hb as [Hb H2]. apply andb_true_iff in Hb as [Hb H1].
      subst b. auto.
    + intros (H & H1 & H2). injection H as Hb Hq. subst b q.
      now rewrite H1, H2.
  - rewrite Hr.
    destruct (b && Line2D.isPointOnLineWithinRange line1 q
                && Line2D.isPointOnLineWithinRange line2 q);
      [left | right]; eexists; reflexivity.
Qed.

(** ** Line2D: distance from a point to a line *)

(** The spec_slope is computed only behind the guard [|start.x - end.x| > eps],
    where its divisor is not zero. *)
Lemma guarded_slope_defined (line : Line2D.t) :
  (if Rgtb (Rabs (Pose2D.x (Line2D.start line) - Pose2D.x (Line2D.end_ line))) Line2D.eps then
     a <- divide (Pose2D.y (Line2D.end_ line) - Pose2D.y (Line2D.start line))
                 (Pose2D.x (Line2D.end_ line) - Pose2D.x (Line2D.start line)) ;;
     let b := -1 in
     s <- divide (- (Pose2D.y (Line2D.end_ line) - Pose2D.y (Line2D.start line)))
                 (Pose2D.x (Line2D.end_ line) - Pose2D.x (Line2D.start line)) ;;
     let c := s * Pose2D.x (Line2D.start line) + Pose2D.y (Line2D.start line) in
     ret (a, b, c)
   else
     let a := 1 in
     let b := 0 in
     let c := - Pose2D.x (Line2D.start line) in
     ret (a, b, c))
  = ret (spec_line_coefficients line).
Proof.
  unfold spec_line_coefficients, spec_slope.
  set (sx := Pose2D.x (Line2D.start line)). set (ex := Pose2D.x (Line2D.end_ line)).
  set (sy := Pose2D.y (Line2D.start line)). set (ey := Pose2D.y (Line2D.end_ line)).
  destruct (Rgt_dec (Rabs (sx - ex)) Line2D.eps) as [Hgt | Hle].
  - rewrite (proj2 (Rgtb_true _ _) Hgt).
    assert (Hd : ex - sx <> 0).
    { intros Hz. replace (sx - ex) with 0 in Hgt by lra.
      rewrite Rabs_R0 in Hgt. pose proof eps_pos. lra. }
    rewrite !divide_nonzero by exact Hd. rewrite !bind_ret.
    do 2 f_equal. f_equal. field. exact Hd.
  - rewrite (proj2 (Rgtb_false _ _)) by lra. reflexivity.
Qed.

Lemma line_coefficients_norm_pos (line : Line2D.t) :
  let '(a, b, c) := spec_line_coefficients line in 0 < a * a + b * b.
Proof.
  unfold spec_line_coefficients.
  destruct (Rgt_dec _ _); [| lra].
  pose proof (Rle_0_sqr (spec_slope line)) as H. unfold Rsqr in H. lra.
Qed.

Lemma getDistanceFromPointToLine_runs (pose : Pose2D.t) (line : Line2D.t) :
  Line2D.getDistanceFromPointToLine pose line
  = let '(a, b, c) := spec_line_coefficients line in
    Some (spec_perpendicular_distance (a, b, c) pose,
          [TStr "a:"; TNum a; TStr " b:"; TNum b; TStr " c:"; TNum c; TEndl]).
Proof.
  unfold Line2D.getDistanceFromPointToLine. rewrite guarded_slope_defined, bind_ret.
  pose proof (line_coefficients_norm_pos line) as Hpos.
  destruct (spec_line_coefficients line) as [[a b] c].
  assert (Hs : sqrt (a * a + b * b) <> 0).
  { pose proof (sqrt_lt_R0 _ Hpos). lra. }
  unfold cout, bind. rewrite divide_nonzero by exact Hs. reflexivity.
Qed.

Lemma sqrt_of_square (v r : R) : 0 <= r -> v = r * r -> sqrt v = r.
Proof. intros Hr ->. now apply sqrt_square. Qed.

(** C7: [getDistanceFromPointToLine] is defined on every input (no division
    by zero: the spec_slope is divided out only when [|start.x - end.x| > eps]) and
    returns [|a p.x + b p.y + c| / sqrt (a^2 + b^2)] with [(a, b, c)] equal to
    [(spec_slope, -1, -spec_slope start.x + start.y)] when [|start.x - end.x| > eps] and
    to [(1, 0, -start.x)] otherwise; for the vertical line (3,0)-(3,5) and the
    point (7,2) it returns 4. *)
Theorem Line2D_getDistanceFromPointToLine_spec (pose : Pose2D.t) (line : Line2D.t) :
  let sx := Pose2D.x (Line2D.start line) in
  let sy := Pose2D.y (Line2D.start line) in
  let ex := Pose2D.x (Line2D.end_ line) in
  let ey := Pose2D.y (Line2D.end_ line) in
  let abc := if Rgt_dec (Rabs (sx - ex)) Line2D.eps
             then ((ey - sy) / (ex - sx), -1, - ((ey - sy) / (ex - sx)) * sx + sy)
             else (1, 0, - sx) in
  value (Line2D.getDistanceFromPointToLine pose line)
     = Some (let '(a, b, c) := abc in
             Rabs (a * Pose2D.x pose + b * Pose2D.y pose + c) / sqrt (a * a + b * b))
  /\ value (Line2D.getDistanceFromPointToLine (Pose2D.of_xy 7 2) (Line2D.of_coords 3 0 3 5))
     = Some 4.
Proof.
  cbv zeta. split.
  - rewrite getDistanceFromPointToLine_runs.
    fold (spec_slope line).
    change (if Rgt_dec _ _ then _ else _) with (spec_line_coefficients line).
    destruct (spec_line_coefficients line) as [[a b] c]. reflexivity.
  - rewrite getDistanceFromPointToLine_runs. unfold spec_line_coefficients.
    rewrite of_coords_fields. cbn [Pose2D.x Pose2D.y Line2D.start Line2D.end_].
    destruct (Rgt_dec (Rabs (3 - 3)) Line2D.eps) as [Hgt | _].
    + exfalso. replace (3 - 3) with 0 in Hgt by lra. rewrite Rabs_R0 in Hgt.
      pose proof eps_pos. lra.
    + unfold value, spec_perpendicular_distance, Pose2D.of_xy.
      cbn [option_map fst Pose2D.x Pose2D.y].
      f_equal. rewrite (sqrt_of_square (1 * 1 + 0 * 0) 1) by lra.
      rewrite Rabs_right by lra. lra.
Qed.

(** ** Line2D: distance from a point to a segment *)

Lemma getDistanceFromPointToLineWithinRange_runs (pose : Pose2D.t) (line : Line2D.t) :
  Line2D.getDistanceFromPointToLineWithinRange pose line
  = ret (if Line2D.isPointOnLineWithinRange line
              (spec_perpendicular_foot (spec_line_coefficients line) pose)
         then spec_perpendicular_distance (spec_line_coefficients line) pose
         else Rmin (Pose2D.getDistance pose (Line2D.start line))
                   (Pose2D.getDistance pose (Line2D.end_ line))).
Proof.
  unfold Line2D.getDistanceFromPointToLineWithinRange.
  rewrite guarded_slope_defined, bind_ret.
  pose proof (line_coefficients_norm_pos line) as Hpos.
  destruct (spec_line_coefficients line) as [[a b] c].
  assert (Hn : a * a + b * b <> 0) by lra.
  assert (Hs : sqrt (a * a + b * b) <> 0).
  { pose proof (sqrt_lt_R0 _ Hpos). lra. }
  cbv zeta. rewrite !divide_nonzero by exact Hn. rewrite !bind_ret.
  unfold spec_perpendicular_foot, spec_perpendicular_distance, Pose2D.set_x, Pose2D.set_y.
  cbn [Pose2D.x Pose2D.y Pose2D.theta Pose2D.default].
  destruct (Line2D.isPointOnLineWithinRange line _).
  - now rewrite divide_nonzero by exact Hs.
  - reflexivity.
Qed.

Lemma vertical_coefficients (x1 y1 y2 : R) :
  spec_line_coefficients (Line2D.of_coords x1 y1 x1 y2) = (1, 0, - x1).
Proof.
  unfold spec_line_coefficients. rewrite of_coords_fields.
  cbn [Pose2D.x Pose2D.y Line2D.start Line2D.end_].
  destruct (Rgt_dec (Rabs (x1 - x1)) Line2D.eps) as [Hgt | _]; [| reflexivity].
  exfalso. replace (x1 - x1) with 0 in Hgt by lra. rewrite Rabs_R0 in Hgt.
  pose proof eps_pos. lra.
Qed.

Lemma point_on_vertical_segment_example :
  Line2D.getDistanceFromPointToLineWithinRange (Pose2D.of_xy 1 1) (Line2D.of_coords 1 0 1 5)
  = ret 0.
Proof.
  rewrite getDistanceFromPointToLineWithinRange_runs, vertical_coefficients.
  assert (Hfoot : spec_perpendicular_foot (1, 0, Ropp 1) (Pose2D.of_xy 1 1) = Pose2D.mk 1 1 0).
  { unfold spec_perpendicular_foot, Pose2D.of_xy. cbn [Pose2D.x Pose2D.y]. f_equal; field. }
  rewrite Hfoot.
  assert (Hon : Line2D.isPointOnLineWithinRange (Line2D.of_coords 1 0 1 5)
                  (Pose2D.mk 1 1 0) = true).
  { apply isPointOnLineWithinRange_iff. rewrite of_coords_fields.
    unfold spec_collinear, Pose2D.sub, Pose2D.getCross.
    cbn [Pose2D.x Pose2D.y Pose2D.theta Line2D.start Line2D.end_].
    split; [real_cases | split].
    - apply axis_within_collapsed. real_cases.
    - right. real_cases. }
  rewrite Hon. unfold spec_perpendicular_distance, Pose2D.of_xy. cbn [Pose2D.x Pose2D.y].
  f_equal. f_equal. rewrite (sqrt_of_square (1 * 1 + 0 * 0) 1) by lra.
  real_cases.
Qed.

Lemma point_beyond_vertical_segment_example :
  Line2D.getDistanceFromPointToLineWithinRange (Pose2D.of_xy 1 10) (Line2D.of_coords 1 0 1 5)
  = ret 5
  /\ Line2D.isPointOnLineWithinRange (Line2D.of_coords 1 0 1 5)
       (spec_perpendicular_foot (spec_line_coefficients (Line2D.of_coords 1 0 1 5))
          (Pose2D.of_xy 1 10))
     = false.
Proof.
  assert (Hfoot : spec_perpendicular_foot (1, 0, Ropp 1) (Pose2D.of_xy 1 10) = Pose2D.mk 1 10 0).
  { unfold spec_perpendicular_foot, Pose2D.of_xy. cbn [Pose2D.x Pose2D.y]. f_equal; field. }
  assert (Hoff : Line2D.isPointOnLineWithinRange (Line2D.of_coords 1 0 1 5)
                   (Pose2D.mk 1 10 0) = false).
  { apply not_true_is_false. rewrite isPointOnLineWithinRange_iff, of_coords_fields.
    cbn [Pose2D.x Pose2D.y Pose2D.theta Line2D.start Line2D.end_].
    intros (_ & _ & [[H _] | (_ & _ & H)]); revert H; real_cases. }
  rewrite getDistanceFromPointToLineWithinRange_runs, vertical_coefficients, Hfoot, Hoff.
  split; [| reflexivity].
  rewrite of_coords_fields. unfold Pose2D.getDistance, Pose2D.magnitude, Pose2D.sqrMagnitude,
    Pose2D.sub, Pose2D.of_xy. cbn [Pose2D.x Pose2D.y Pose2D.theta Line2D.start Line2D.end_].
  rewrite (sqrt_of_square ((1 - 1) * (1 - 1) + (0 - 10) * (0 - 10)) 10) by lra.
  rewrite (sqrt_of_square ((1 - 1) * (1 - 1) + (5 - 10) * (5 - 10)) 5) by lra.
  do 2 f_equal. real_cases.
Qed.

(** C6: [getDistanceFromPointToLineWithinRange] is defined on every input;
    with [(a, b, c)] the coefficients of the line and [h] the foot of the
    perpendicular given by the projection formula, it returns
    [|a p.x + b p.y + c| / sqrt (a^2 + b^2)] when [h] passes
    [isPointOnLineWithinRange], and the smaller of the distances from the
    point to [start] and to [end] otherwise. For the vertical segment
    (1,0)-(1,5) the point (1,1) gives 0 and the point (1,10) gives 5, by the
    end point branch. *)
Theorem Line2D_getDistanceFromPointToLineWithinRange_spec
  (pose : Pose2D.t) (line : Line2D.t) :
  (let '(a, b, c) := spec_line_coefficients line in
   let p := Pose2D.x pose in
   let q := Pose2D.y pose in
   let h := Pose2D.mk ((p * (a * a + b * b) - a * (a * p + b * q + c)) / (a * a + b * b))
                      ((q * (a * a + b * b) - b * (a * p + b * q + c)) / (a * a + b * b))
                      0 in
   Line2D.getDistanceFromPointToLineWithinRange pose line
   = ret (if Line2D.isPointOnLineWithinRange line h
          then Rabs (a * p + b * q + c) / sqrt (a * a + b * b)
          else Rmin (Pose2D.getDistance pose (Line2D.start line))
                    (Pose2D.getDistance pose (Line2D.end_ line))))
  /\ Line2D.getDistanceFromPointToLineWithinRange
       (Pose2D.of_xy 1 1) (Line2D.of_coords 1 0 1 5) = ret 0
  /\ Line2D.getDistanceFromPointToLineWithinRange
       (Pose2D.of_xy 1 10) (Line2D.of_coords 1 0 1 5) = ret 5
  /\ Line2D.isPointOnLineWithinRange (Line2D.of_coords 1 0 1 5)
       (spec_perpendicular_foot (spec_line_coefficients (Line2D.of_coords 1 0 1 5))
          (Pose2D.of_xy 1 10))
     = false.
Proof.
  split; [| split; [exact point_on_vertical_segment_example
                   | exact point_beyond_vertical_segment_example]].
  rewrite getDistanceFromPointToLineWithinRange_runs.
  destruct (spec_line_coefficients line) as [[a b] c]. reflexivity.
Qed.

(** ** Linear interpolation *)

Lemma guard_unit_cases (t0 : R) :
  (t0 < 0 -> Generic.guard t0 0 1 = 0)
  /\ (0 <= t0 <= 1 -> Generic.guard t0 0 1 = t0)
  /\ (1 < t0 -> Generic.guard t0 0 1 = 1).
Proof.
  unfold Generic.guard, Rgtb, Rltb.
  destruct (Rlt_dec t0 0), (Rlt_dec 1 t0); repeat split; intros; try reflexivity; lra.
Qed.

Lemma guard_unit_range (t0 : R) : 0 <= Generic.guard t0 0 1 <= 1.
Proof.
  unfold Generic.guard, Rgtb, Rltb.
  destruct (Rlt_dec t0 0), (Rlt_dec 1 t0); lra.
Qed.

Lemma Vector2_lerp_formula (a b : Vector2.t) (t0 : R) :
  Vector2.lerp a b t0
  = Vector2.mk (Vector2.x a + (Vector2.x b - Vector2.x a) * Generic.guard t0 0 1)
               (Vector2.y a + (Vector2.y b - Vector2.y a) * Generic.guard t0 0 1).
Proof. reflexivity. Qed.

Lemma Pose2D_lerp_formula (a b : Pose2D.t) (t0 : R) :
  Pose2D.lerp a b t0
  = Pose2D.mk (Pose2D.x a + (Pose2D.x b - Pose2D.x a) * Generic.guard t0 0 1)
              (Pose2D.y a + (Pose2D.y b - Pose2D.y a) * Generic.guard t0 0 1)
              (Pose2D.theta a + (Pose2D.theta b - Pose2D.theta a) * Generic.guard t0 0 1).
Proof. reflexivity. Qed.

Lemma Vector2_lerp_low (a b : Vector2.t) (t0 : R) : t0 <= 0 -> Vector2.lerp a b t0 = a.
Proof.
  intros Ht. rewrite Vector2_lerp_formula.
  assert (Hg : Generic.guard t0 0 1 = 0).
  { destruct (guard_unit_cases t0) as (H1 & H2 & _).
    destruct (Rlt_dec t0 0); [auto | rewrite H2; lra]. }
  rewrite Hg. destruct a as [ax ay]. cbn [Vector2.x Vector2.y]. f_equal; lra.
Qed.

Lemma Vector2_lerp_high (a b : Vector2.t) (t0 : R) : 1 <= t0 -> Vector2.lerp a b t0 = b.
Proof.
  intros Ht. rewrite Vector2_lerp_formula.
  assert (Hg : Generic.guard t0 0 1 = 1).
  { destruct (guard_unit_cases t0) as (_ & H2 & H3).
    destruct (Rlt_dec 1 t0); [auto | rewrite H2; lra]. }
  rewrite Hg. destruct b as [bx b_y]. cbn [Vector2.x Vector2.y]. f_equal; lra.
Qed.

Lemma Pose2D_lerp_low (a b : Pose2D.t) (t0 : R) : t0 <= 0 -> Pose2D.lerp a b t0 = a.
Proof.
  intros Ht. rewrite Pose2D_lerp_formula.
  assert (Hg : Generic.guard t0 0 1 = 0).
  { destruct (guard_unit_cases t0) as (H1 & H2 & _).
    destruct (Rlt_dec t0 0); [auto | rewrite H2; lra]. }
  rewrite Hg. destruct a as [ax ay at_]. cbn [Pose2D.x Pose2D.y Pose2D.theta]. f_equal; lra.
Qed.

Lemma Pose2D_lerp_high (a b : Pose2D.t) (t0 : R) : 1 <= t0 -> Pose2D.lerp a b t0 = b.
Proof.
  intros Ht. rewrite Pose2D_lerp_formula.
  assert (Hg : Generic.guard t0 0 1 = 1).
  { destruct (guard_unit_cases t0) as (_ & H2 & H3).
    destruct (Rlt_dec 1 t0); [auto | rewrite H2; lra]. }
  rewrite Hg. destruct b as [bx b_y bt]. cbn [Pose2D.x Pose2D.y Pose2D.theta]. f_equal; lra.
Qed.

(** C8: [Vector2::lerp] and [Pose2D::lerp] clamp [t] into [0, 1] and then
    interpolate every field ([x], [y], and [theta] for a pose) as
    [a + (b - a) * t]; so [lerp a b 0 = a], [lerp a b 1 = b], a parameter
    below 0 gives [a] and one above 1 gives [b]; in particular
    [lerp (0,0) (10,0) 2 = (10,0)]. *)
Theorem lerp_clamps_then_interpolates
  (a b : Vector2.t) (pa pb : Pose2D.t) (t0 : R) :
  let c := Generic.guard t0 0 1 in
  (0 <= c <= 1 /\ (t0 < 0 -> c = 0) /\ (0 <= t0 <= 1 -> c = t0) /\ (1 < t0 -> c = 1))
  /\ Vector2.lerp a b t0
     = Vector2.mk (Vector2.x a + (Vector2.x b - Vector2.x a) * c)
                  (Vector2.y a + (Vector2.y b - Vector2.y a) * c)
  /\ Pose2D.lerp pa pb t0
     = Pose2D.mk (Pose2D.x pa + (Pose2D.x pb - Pose2D.x pa) * c)
                 (Pose2D.y pa + (Pose2D.y pb - Pose2D.y pa) * c)
                 (Pose2D.theta pa + (Pose2D.theta pb - Pose2D.theta pa) * c)
  /\ (Vector2.lerp a b 0 = a /\ Vector2.lerp a b 1 = b)
  /\ (Pose2D.lerp pa pb 0 = pa /\ Pose2D.lerp pa pb 1 = pb)
  /\ (t0 <= 0 -> Vector2.lerp a b t0 = a /\ Pose2D.lerp pa pb t0 = pa)
  /\ (1 <= t0 -> Vector2.lerp a b t0 = b /\ Pose2D.lerp pa pb t0 = pb)
  /\ Vector2.lerp (Vector2.mk 0 0) (Vector2.mk 10 0) 2 = Vector2.mk 10 0.
Proof.
  cbv zeta. pose proof (guard_unit_cases t0) as (H1 & H2 & H3).
  pose proof (guard_unit_range t0) as Hr.
  repeat split; intros;
    try apply Vector2_lerp_formula; try apply Pose2D_lerp_formula;
    try (apply Vector2_lerp_low; lra); try (apply Vector2_lerp_high; lra);
    try (apply Pose2D_lerp_low; lra); try (apply Pose2D_lerp_high; lra);
    auto; lra.
Qed.

(** ** Output to [std::cout] *)

Lemma getIntersection_silent (line1 line2 : Line2D.t) :
  output (Line2D.getIntersection line1 line2) = Some [].
Proof.
  destruct (getIntersection_defined line1 line2) as [r ->]. reflexivity.
Qed.

Lemma getIntersectionWithinRange_silent (line1 line2 : Line2D.t) :
  output (Line2D.getIntersectionWithinRange line1 line2) = Some [].
Proof.
  destruct (getIntersectionWithinRange_computes line1 line2) as (b & p & _ & ->).
  reflexivity.
Qed.

Lemma getDistanceFromPointToLineWithinRange_silent (pose : Pose2D.t) (line : Line2D.t) :
  output (Line2D.getDistanceFromPointToLineWithinRange pose line) = Some [].
Proof. now rewrite getDistanceFromPointToLineWithinRange_runs. Qed.

Lemma getDistanceFromPointToLine_output (pose : Pose2D.t) (line : Line2D.t) :
  output (Line2D.getDistanceFromPointToLine pose line)
  = let '(a, b, c) := spec_line_coefficients line in
    Some [TStr "a:"; TNum a; TStr " b:"; TNum b; TStr " c:"; TNum c; TEndl].
Proof.
  rewrite getDistanceFromPointToLine_runs.
  destruct (spec_line_coefficients line) as [[a b] c]. reflexivity.
Qed.

(** C9 (observed behaviour at a failing input): the call
    [getDistanceFromPointToLine((7,2), (3,0)-(3,5))] writes the line
    ["a:1 b:0 c:-3"] to [std::cout], and every call of that function writes a
    line, while [getDistanceFromPointToLineWithinRange], which computes the
    same coefficients, writes nothing. *)
Theorem getDistanceFromPointToLine_writes_to_cout :
  output (Line2D.getDistanceFromPointToLine (Pose2D.of_xy 7 2) (Line2D.of_coords 3 0 3 5))
  = Some [TStr "a:"; TNum 1; TStr " b:"; TNum 0; TStr " c:"; TNum (- (3)); TEndl]
  /\ (forall pose line, output (Line2D.getDistanceFromPointToLine pose line) <> Some [])
  /\ (forall pose line,
         output (Line2D.getDistanceFromPointToLineWithinRange pose line) = Some []).
Proof.
  split; [| split].
  - rewrite getDistanceFromPointToLine_output, vertical_coefficients. reflexivity.
  - intros pose line. rewrite getDistanceFromPointToLine_output.
    destruct (spec_line_coefficients line) as [[a b] c]. discriminate.
  - apply getDistanceFromPointToLineWithinRange_silent.
Qed.

(** ** Pose2D: the orientation in the arithmetic operators *)

Lemma Pose2D_div_assign_div (p : Pose2D.t) (s : R) : Pose2D.div_assign p s = Pose2D.div p s.
Proof.
  unfold Pose2D.div_assign, Pose2D.div, divide.
  destruct (Req_dec_T s 0); reflexivity.
Qed.

Lemma intersection_point_theta (line1 line2 : Line2D.t) :
  let a := Pose2D.sub (Line2D.end_ line1) (Line2D.start line1) in
  let b := Pose2D.sub (Line2D.end_ line2) (Line2D.start line2) in
  Pose2D.theta (spec_intersection_point line1 line2)
  = Pose2D.theta (Line2D.start line1)
    + Pose2D.getCross b (Pose2D.sub (Line2D.start line2) (Line2D.start line1))
      / Pose2D.getCross b a
      * (Pose2D.theta (Line2D.end_ line1) - Pose2D.theta (Line2D.start line1)).
Proof.
  cbv zeta. unfold spec_intersection_point, Pose2D.add, Pose2D.mul.
  cbn [Pose2D.theta]. unfold Pose2D.sub at 1. cbn [Pose2D.theta]. ring.
Qed.

(** C10: negation, addition, subtraction, multiplication and division by a
    scalar, and their assigning forms, treat [theta] exactly as [x] and [y];
    hence, whenever [getIntersection] finds a point, its orientation is
    [line1.start.theta + s * (line1.end.theta - line1.start.theta)] for the
    solved parameter [s = cross(b, line2.start - line1.start) / cross(b, a)].
    For the lines (0,0,1)-(4,4,3) and (0,4,0)-(4,0,0) the point is (2,2) and
    its orientation is 2. *)
Theorem Pose2D_arithmetic_carries_theta
  (p q : Pose2D.t) (s : R) (line1 line2 : Line2D.t) :
  Pose2D.neg p = Pose2D.mk (- Pose2D.x p) (- Pose2D.y p) (- Pose2D.theta p)
  /\ Pose2D.add p q
     = Pose2D.mk (Pose2D.x p + Pose2D.x q) (Pose2D.y p + Pose2D.y q)
                 (Pose2D.theta p + Pose2D.theta q)
  /\ Pose2D.sub p q
     = Pose2D.mk (Pose2D.x p - Pose2D.x q) (Pose2D.y p - Pose2D.y q)
                 (Pose2D.theta p - Pose2D.theta q)
  /\ Pose2D.mul p s = Pose2D.mk (Pose2D.x p * s) (Pose2D.y p * s) (Pose2D.theta p * s)
  /\ (s <> 0 ->
      Pose2D.div p s = ret (Pose2D.mk (Pose2D.x p / s) (Pose2D.y p / s) (Pose2D.theta p / s)))
  /\ (Pose2D.add_assign p q = Pose2D.add p q
      /\ Pose2D.sub_assign p q = Pose2D.sub p q
      /\ Pose2D.mul_assign p s = Pose2D.mul p s
      /\ Pose2D.div_assign p s = Pose2D.div p s)
  /\ (Rabs (direction_cross line1 line2) > Line2D.eps ->
      exists pt : Pose2D.t,
        Line2D.getIntersection line1 line2 = ret (true, pt)
        /\ Pose2D.theta pt
           = Pose2D.theta (Line2D.start line1)
             + Pose2D.getCross (Pose2D.sub (Line2D.end_ line2) (Line2D.start line2))
                               (Pose2D.sub (Line2D.start line2) (Line2D.start line1))
               / Pose2D.getCross (Pose2D.sub (Line2D.end_ line2) (Line2D.start line2))
                                 (Pose2D.sub (Line2D.end_ line1) (Line2D.start line1))
               * (Pose2D.theta (Line2D.end_ line1) - Pose2D.theta (Line2D.start line1)))
  /\ Line2D.getIntersection (Line2D.of_coords6 0 0 1 4 4 3) (Line2D.of_coords6 0 4 0 4 0 0)
     = ret (true, Pose2D.mk 2 2 2).
Proof.
  split; [reflexivity |]. split; [reflexivity |]. split; [reflexivity |].
  split; [reflexivity |]. split; [apply Pose2D_div_nonzero |].
  split; [| split].
  - split; [reflexivity |]. split; [reflexivity |]. split; [reflexivity |].
    apply Pose2D_div_assign_div.
  - intros Hgt. exists (spec_intersection_point line1 line2). split.
    + apply getIntersection_crossing. lra.
    + apply intersection_point_theta.
  - rewrite getIntersection_crossing.
    + do 2 f_equal.
      unfold spec_intersection_point, Pose2D.add, Pose2D.mul, Pose2D.sub, Pose2D.getCross.
      cbn. f_equal; field_simplify; lra.
    + unfold direction_cross, Pose2D.sub, Pose2D.getCross. cbn. real_cases.
Qed.

(** * Further properties of the embedded code *)

(** ** Generic::guard *)

Lemma guard_cases (x lo hi : R) :
  (x < lo -> Generic.guard x lo hi = lo)
  /\ (lo <= x -> hi < x -> Generic.guard x lo hi = hi)
  /\ (lo <= x -> x <= hi -> Generic.guard x lo hi = x).
Proof.
  unfold Generic.guard, Rgtb, Rltb.
  destruct (Rlt_dec x lo), (Rlt_dec hi x); repeat split; intros; try reflexivity; lra.
Qed.

(** X1: for bounds [lo <= hi], [guard] returns a value of [[lo, hi]], leaves a
    value of that interval unchanged, is idempotent and is monotone in its
    first argument. *)
Theorem guard_clamps_into_interval (x x' lo hi : R) :
  lo <= hi ->
  lo <= Generic.guard x lo hi <= hi
  /\ (lo <= x <= hi -> Generic.guard x lo hi = x)
  /\ Generic.guard (Generic.guard x lo hi) lo hi = Generic.guard x lo hi
  /\ (x <= x' -> Generic.guard x lo hi <= Generic.guard x' lo hi).
Proof.
  intros Hb.
  assert (Hr : forall v, lo <= Generic.guard v lo hi <= hi).
  { intros v. destruct (guard_cases v lo hi) as (H1 & H2 & H3).
    destruct (Rlt_dec v lo); [rewrite H1; lra |].
    destruct (Rlt_dec hi v); [rewrite H2; lra | rewrite H3; lra]. }
  split; [apply Hr |]. split; [| split].
  - intros [Hl Hh]. now apply guard_cases.
  - destruct (guard_cases (Generic.guard x lo hi) lo hi) as (_ & _ & H3).
    apply H3; apply Hr.
  - intros Hx. destruct (guard_cases x lo hi) as (H1 & H2 & H3).
    destruct (guard_cases x' lo hi) as (H1' & H2' & H3').
    destruct (Rlt_dec x lo); [rewrite H1 by lra; apply Hr |].
    destruct (Rlt_dec hi x).
    + rewrite H2, H2' by lra. lra.
    + rewrite H3 by lra. destruct (Rlt_dec hi x'); [rewrite H2' | rewrite H3']; lra.
Qed.

Lemma guard_clamps_into_interval_witness :
  0 <= Generic.guard 5 0 1 <= 1
  /\ (0 <= 5 <= 1 -> Generic.guard 5 0 1 = 5)
  /\ Generic.guard (Generic.guard 5 0 1) 0 1 = Generic.guard 5 0 1
  /\ (5 <= 7 -> Generic.guard 5 0 1 <= Generic.guard 7 0 1).
Proof. apply (guard_clamps_into_interval 5 7 0 1). lra. Defined.

(** ** Vector2: equality *)

(** X2: [Vector2::operator==] holds exactly for equal vectors, [operator!=] is
    its negation and [equals] is the same test. *)
Theorem Vector2_equality_decides (v w : Vector2.t) :
  (Vector2.eqb v w = true <-> v = w)
  /\ (Vector2.neqb v w = true <-> v <> w)
  /\ Vector2.equals v w = Vector2.eqb v w.
Proof.
  assert (He : Vector2.eqb v w = true <-> v = w) by apply Vector2_eqb_eq.
  split; [exact He |]. split; [| reflexivity].
  change (Vector2.neqb v w) with (negb (Vector2.eqb v w)).
  rewrite negb_true_iff. rewrite <- He.
  destruct (Vector2.eqb v w); split; intros; congruence.
Qed.

(** ** Pose2D: rotation about the origin *)

Lemma sin2_cos2_mul (a : R) : sin a * sin a + cos a * cos a = 1.
Proof. pose proof (sin2_cos2 a) as H. unfold Rsqr in H. exact H. Qed.

(** X3: [Pose2D::rotate] composes additively, rotating by the opposite angle
    undoes a rotation, and the orientation is never changed. *)
Theorem Pose2D_rotate_composes (p : Pose2D.t) (a b : R) :
  Pose2D.rotate (Pose2D.rotate p a) b = Pose2D.rotate p (a + b)
  /\ Pose2D.rotate (Pose2D.rotate p a) (- a) = p
  /\ Pose2D.theta (Pose2D.rotate p a) = Pose2D.theta p.
Proof.
  split; [| split; [apply Pose2D_rotate_inverse | reflexivity]].
  destruct p as [px py pt]. unfold Pose2D.rotate, Pose2D.set_x, Pose2D.set_y.
  cbn [Pose2D.x Pose2D.y Pose2D.theta]. rewrite cos_plus, sin_plus. f_equal; ring.
Qed.

Lemma Pose2D_rotate_sub_sqr (p q : Pose2D.t) (a : R) :
  Pose2D.sqrMagnitude (Pose2D.sub (Pose2D.rotate q a) (Pose2D.rotate p a))
  = Pose2D.sqrMagnitude (Pose2D.sub q p).
Proof.
  destruct p as [px py pt], q as [qx qy qt].
  unfold Pose2D.sqrMagnitude, Pose2D.sub, Pose2D.rotate, Pose2D.set_x, Pose2D.set_y.
  cbn [Pose2D.x Pose2D.y Pose2D.theta].
  transitivity (((qx - px) * (qx - px) + (qy - py) * (qy - py))
                * (sin a * sin a + cos a * cos a)); [ring |].
  rewrite sin2_cos2_mul. ring.
Qed.

(** X4: [Pose2D::rotate] is an isometry: it keeps the length of a pose, the
    distance between two poses, and their dot and cross products. *)
Theorem Pose2D_rotate_isometry (p q : Pose2D.t) (a : R) :
  Pose2D.length (Pose2D.rotate p a) = Pose2D.length p
  /\ Pose2D.getDistance (Pose2D.rotate p a) (Pose2D.rotate q a) = Pose2D.getDistance p q
  /\ Pose2D.getDot (Pose2D.rotate p a) (Pose2D.rotate q a) = Pose2D.getDot p q
  /\ Pose2D.getCross (Pose2D.rotate p a) (Pose2D.rotate q a) = Pose2D.getCross p q.
Proof.
  split; [| split; [| split]].
  - unfold Pose2D.length, Pose2D.magnitude. f_equal.
    destruct p as [px py pt].
    unfold Pose2D.sqrMagnitude, Pose2D.rotate, Pose2D.set_x, Pose2D.set_y.
    cbn [Pose2D.x Pose2D.y Pose2D.theta].
    transitivity ((px * px + py * py) * (sin a * sin a + cos a * cos a)); [ring |].
    rewrite sin2_cos2_mul. ring.
  - unfold Pose2D.getDistance, Pose2D.magnitude. cbv zeta.
    now rewrite Pose2D_rotate_sub_sqr.
  - destruct p as [px py pt], q as [qx qy qt].
    unfold Pose2D.getDot, Pose2D.rotate, Pose2D.set_x, Pose2D.set_y.
    cbn [Pose2D.x Pose2D.y Pose2D.theta].
    transitivity ((px * qx + py * qy) * (sin a * sin a + cos a * cos a)); [ring |].
    rewrite sin2_cos2_mul. ring.
  - destruct p as [px py pt], q as [qx qy qt].
    unfold Pose2D.getCross, Pose2D.rotate, Pose2D.set_x, Pose2D.set_y.
    cbn [Pose2D.x Pose2D.y Pose2D.theta].
    transitivity ((px * qy - py * qx) * (sin a * sin a + cos a * cos a)); [ring |].
    rewrite sin2_cos2_mul. ring.
Qed.

(** ** Rotation about a centre *)

Lemma Pose2D_rotate_about_computes (p : Pose2D.t) (o : Vector2.t) (a : R) :
  Pose2D.rotate_about p o a
  = let rx := Pose2D.x p - Vector2.x o in
    let ry := Pose2D.y p - Vector2.y o in
    let x' := rx * cos a - ry * sin a in
    Pose2D.mk (x' + Vector2.x o) (x' * sin a + ry * cos a + Vector2.y o) (Pose2D.theta p).
Proof. reflexivity. Qed.

(** X5: [Pose2D::rotate(Vector2 o, T angle)] keeps the orientation, leaves the
    centre [o] in place and is the identity for the angle 0; but, going
    through [Vector2::rotate], it equals "translate by [-o], [Pose2D::rotate],
    translate back" only when [sin angle = 0] or the rotated x-offset equals
    the original one. By a quarter turn every pose lands on the diagonal
    through [o]: [(o.x - (y - o.y), o.y - (y - o.y))]. *)
Theorem Pose2D_rotate_about_centre (p : Pose2D.t) (o : Vector2.t) (a : R) :
  let rx := Pose2D.x p - Vector2.x o in
  let ry := Pose2D.y p - Vector2.y o in
  let q := Pose2D.rotate (Pose2D.mk rx ry (Pose2D.theta p)) a in
  Pose2D.theta (Pose2D.rotate_about p o a) = Pose2D.theta p
  /\ Pose2D.rotate_about (Pose2D.mk (Vector2.x o) (Vector2.y o) (Pose2D.theta p)) o a
     = Pose2D.mk (Vector2.x o) (Vector2.y o) (Pose2D.theta p)
  /\ Pose2D.rotate_about p o 0 = p
  /\ (Pose2D.rotate_about p o a
      = Pose2D.mk (Pose2D.x q + Vector2.x o) (Pose2D.y q + Vector2.y o) (Pose2D.theta p)
      <-> sin a = 0 \/ rx * cos a - ry * sin a = rx)
  /\ Pose2D.rotate_about p o (PI / 2)
     = Pose2D.mk (Vector2.x o - ry) (Vector2.y o - ry) (Pose2D.theta p).
Proof.
  cbv zeta. rewrite !Pose2D_rotate_about_computes. cbv zeta.
  destruct p as [px py pt], o as [ox oy].
  cbn [Pose2D.x Pose2D.y Pose2D.theta Vector2.x Vector2.y].
  split; [reflexivity |]. split; [f_equal; ring |]. split; [| split].
  - rewrite cos_0, sin_0. f_equal; ring.
  - unfold Pose2D.rotate, Pose2D.set_x, Pose2D.set_y.
    cbn [Pose2D.x Pose2D.y Pose2D.theta].
    set (x' := (px - ox) * cos a - (py - oy) * sin a). split.
    + intros H. injection H as H.
      assert (Hm : (x' - (px - ox)) * sin a = 0) by lra.
      apply Rmult_integral in Hm. destruct Hm; [right | left]; lra.
    + intros [Hs | Hx]; f_equal; [rewrite Hs | rewrite Hx]; lra.
  - rewrite cos_PI2, sin_PI2. f_equal; ring.
Qed.

(** ** Vector2: normalisation *)

Lemma Vector2_length_zero_iff (v : Vector2.t) :
  Vector2.length v = 0 <-> v = Vector2.mk 0 0.
Proof.
  destruct v as [vx vy].
  unfold Vector2.length, Vector2.magnitude, Vector2.sqrMagnitude. cbn [Vector2.x Vector2.y].
  split.
  - intros H. apply sqrt_eq_0 in H; [| nra].
    assert (vx = 0) by nra. assert (vy = 0) by nra. now subst.
  - intros H. injection H as -> ->. replace (0 * 0 + 0 * 0) with 0 by ring. apply sqrt_0.
Qed.

Lemma Vector2_div_nonzero (v : Vector2.t) (s : R) :
  s <> 0 -> Vector2.div v s = ret (Vector2.mk (Vector2.x v / s) (Vector2.y v / s)).
Proof.
  intros Hs. unfold Vector2.div. rewrite !divide_nonzero by exact Hs.
  now rewrite !bind_ret.
Qed.

Lemma Vector2_div_assign_div (v : Vector2.t) (s : R) :
  Vector2.div_assign v s = Vector2.div v s.
Proof.
  unfold Vector2.div_assign, Vector2.div, divide.
  destruct (Req_dec_T s 0); reflexivity.
Qed.

(** X6: [normalized] and [normalize] give the same result; they fail (a
    division by zero) exactly on the zero vector, and on any other vector
    they return a vector of length 1 with the same direction (zero cross
    product and positive dot product with the original). *)
Theorem Vector2_normalized_unit (v : Vector2.t) :
  Vector2.normalize v = Vector2.normalized v
  /\ (Vector2.normalized v = None <-> v = Vector2.mk 0 0)
  /\ (v <> Vector2.mk 0 0 ->
      exists u, Vector2.normalized v = ret u
                /\ Vector2.length u = 1
                /\ Vector2.getCross v u = 0
                /\ 0 < Vector2.getDot v u).
Proof.
  split; [apply Vector2_div_assign_div |].
  unfold Vector2.normalized.
  destruct (Req_dec_T (Vector2.length v) 0) as [Hz | Hnz].
  - pose proof (proj1 (Vector2_length_zero_iff v) Hz) as Hv. split.
    + split; [intros _; exact Hv |]. intros _. rewrite Hz.
      unfold Vector2.div. now rewrite divide_zero.
    + intros Hne. contradiction.
  - rewrite (Vector2_div_nonzero v _ Hnz). split.
    + split; [discriminate |]. intros Hv. apply Vector2_length_zero_iff in Hv. contradiction.
    + intros _. eexists. split; [reflexivity |].
      set (l := Vector2.length v) in *.
      assert (Hl2 : l * l = Vector2.sqrMagnitude v).
      { unfold l, Vector2.length, Vector2.magnitude. apply sqrt_sqrt.
        unfold Vector2.sqrMagnitude. nra. }
      assert (Hlpos : 0 < l).
      { assert (0 <= l) by (unfold l, Vector2.length, Vector2.magnitude; apply sqrt_pos). lra. }
      destruct v as [vx vy]. unfold Vector2.sqrMagnitude in Hl2.
      cbn [Vector2.x Vector2.y] in *.
      split; [| split].
      * unfold Vector2.length, Vector2.magnitude, Vector2.sqrMagnitude.
        cbn [Vector2.x Vector2.y].
        replace (vx / l * (vx / l) + vy / l * (vy / l))
          with ((vx * vx + vy * vy) / (l * l)) by (field; lra).
        rewrite <- Hl2. replace (l * l / (l * l)) with 1 by (field; lra). apply sqrt_1.
      * unfold Vector2.getCross. cbn [Vector2.x Vector2.y]. field. lra.
      * unfold Vector2.getDot. cbn [Vector2.x Vector2.y].
        replace (vx * (vx / l) + vy * (vy / l)) with ((vx * vx + vy * vy) / l) by (field; lra).
        rewrite <- Hl2. replace (l * l / l) with l by (field; lra). exact Hlpos.
Qed.

(** ** Dot and cross products *)

Lemma Rabs_le_sqrt_of_sqr (c m : R) : 0 <= m -> c * c <= m -> Rabs c <= sqrt m.
Proof.
  intros Hm Hc. rewrite <- sqrt_Rsqr_abs. apply sqrt_le_1_alt. exact Hc.
Qed.

(** X7: for the positions of two poses, [getDot^2 + getCross^2] is the product
    of the squared lengths; hence neither product exceeds, in magnitude, the
    product of the lengths. [getCross] is antisymmetric, [getDot] symmetric,
    and the cross product of a pose with itself is 0. *)
Theorem Pose2D_dot_cross_identity (a b : Pose2D.t) :
  Pose2D.getDot a b * Pose2D.getDot a b + Pose2D.getCross a b * Pose2D.getCross a b
  = Pose2D.sqrMagnitude a * Pose2D.sqrMagnitude b
  /\ Rabs (Pose2D.getCross a b) <= Pose2D.length a * Pose2D.length b
  /\ Rabs (Pose2D.getDot a b) <= Pose2D.length a * Pose2D.length b
  /\ Pose2D.getCross a b = - Pose2D.getCross b a
  /\ Pose2D.getDot a b = Pose2D.getDot b a
  /\ Pose2D.getCross a a = 0.
Proof.
  assert (Hid : Pose2D.getDot a b * Pose2D.getDot a b
                + Pose2D.getCross a b * Pose2D.getCross a b
                = Pose2D.sqrMagnitude a * Pose2D.sqrMagnitude b).
  { unfold Pose2D.getDot, Pose2D.getCross, Pose2D.sqrMagnitude. ring. }
  assert (Ha : 0 <= Pose2D.sqrMagnitude a) by (unfold Pose2D.sqrMagnitude; nra).
  assert (Hb : 0 <= Pose2D.sqrMagnitude b) by (unfold Pose2D.sqrMagnitude; nra).
  assert (Hlen : Pose2D.length a * Pose2D.length b
                 = sqrt (Pose2D.sqrMagnitude a * Pose2D.sqrMagnitude b)).
  { unfold Pose2D.length, Pose2D.magnitude. now rewrite sqrt_mult. }
  split; [exact Hid |]. rewrite Hlen.
  split; [| split; [| split; [| split]]].
  - apply Rabs_le_sqrt_of_sqr; [nra |].
    pose proof (Rle_0_sqr (Pose2D.getDot a b)) as H. unfold Rsqr in H. lra.
  - apply Rabs_le_sqrt_of_sqr; [nra |].
    pose proof (Rle_0_sqr (Pose2D.getCross a b)) as H. unfold Rsqr in H. lra.
  - unfold Pose2D.getCross. ring.
  - unfold Pose2D.getDot. ring.
  - unfold Pose2D.getCross. ring.
Qed.

(** ** Pose2D: distance *)

Lemma sum_sqr_nonneg (u v : R) : 0 <= u * u + v * v.
Proof. nra. Qed.

Lemma sum_sqr_zero (u v : R) : u * u + v * v = 0 -> u = 0 /\ v = 0.
Proof. intros H. split; nra. Qed.

Lemma norm2_triangle (ux uy vx vy : R) :
  sqrt ((ux + vx) * (ux + vx) + (uy + vy) * (uy + vy))
  <= sqrt (ux * ux + uy * uy) + sqrt (vx * vx + vy * vy).
Proof.
  set (nu := sqrt (ux * ux + uy * uy)). set (nv := sqrt (vx * vx + vy * vy)).
  assert (Hnu : 0 <= nu) by apply sqrt_pos.
  assert (Hnv : 0 <= nv) by apply sqrt_pos.
  assert (Hu2 : nu * nu = ux * ux + uy * uy) by (apply sqrt_sqrt; nra).
  assert (Hv2 : nv * nv = vx * vx + vy * vy) by (apply sqrt_sqrt; nra).
  pose proof (sqrt_cauchy ux uy vx vy) as Hc. unfold Rsqr in Hc. fold nu nv in Hc.
  rewrite <- (sqrt_square (nu + nv)) by lra.
  apply sqrt_le_1_alt. nra.
Qed.

(** X8: [Pose2D::getDistance] is a distance on positions: it is never
    negative, it is 0 exactly when the two poses have the same [x] and [y]
    (whatever their orientations), it is symmetric and it satisfies the
    triangle inequality. *)
Theorem Pose2D_getDistance_metric (a b c : Pose2D.t) :
  0 <= Pose2D.getDistance a b
  /\ (Pose2D.getDistance a b = 0 <-> Pose2D.x a = Pose2D.x b /\ Pose2D.y a = Pose2D.y b)
  /\ Pose2D.getDistance a b = Pose2D.getDistance b a
  /\ Pose2D.getDistance a c <= Pose2D.getDistance a b + Pose2D.getDistance b c.
Proof.
  split; [apply sqrt_pos |]. split; [| split; [apply getDistance_symmetric |]].
  - unfold Pose2D.getDistance, Pose2D.magnitude, Pose2D.sqrMagnitude, Pose2D.sub.
    cbn [Pose2D.x Pose2D.y]. split.
    + intros H. apply sqrt_eq_0 in H; [| apply sum_sqr_nonneg].
      apply sum_sqr_zero in H. lra.
    + intros [-> ->].
      replace ((Pose2D.x b - Pose2D.x b) * (Pose2D.x b - Pose2D.x b)
               + (Pose2D.y b - Pose2D.y b) * (Pose2D.y b - Pose2D.y b)) with 0 by ring.
      apply sqrt_0.
  - unfold Pose2D.getDistance, Pose2D.magnitude, Pose2D.sqrMagnitude, Pose2D.sub.
    cbn [Pose2D.x Pose2D.y].
    replace (Pose2D.x c - Pose2D.x a)
      with ((Pose2D.x b - Pose2D.x a) + (Pose2D.x c - Pose2D.x b)) by ring.
    replace (Pose2D.y c - Pose2D.y a)
      with ((Pose2D.y b - Pose2D.y a) + (Pose2D.y c - Pose2D.y b)) by ring.
    apply norm2_triangle.
Qed.

(** ** Linear interpolation: bounds *)

Lemma between_min_max (u v c : R) :
  0 <= c <= 1 -> Rmin u v <= u + (v - u) * c <= Rmax u v.
Proof.
  intros Hc. unfold Rmin, Rmax. destruct (Rle_dec u v); split; nra.
Qed.

Lemma sqrt_scaled (c s : R) : 0 <= c -> sqrt (c * c * s) = c * sqrt s.
Proof.
  intros Hc. destruct (Rle_dec 0 s) as [Hs | Hs].
  - rewrite sqrt_mult by nra. now rewrite sqrt_square.
  - assert (Hneg : c * c * s <= 0) by nra.
    rewrite (sqrt_neg_0 _ Hneg). rewrite (sqrt_neg_0 s) by lra. ring.
Qed.

(** X9: the interpolated pose never leaves the box of its end points: each of
    [x], [y] and [theta] lies between the two end values; and its distance
    from [a] is the clamped parameter times the distance from [a] to [b]. *)
Theorem Pose2D_lerp_stays_between (a b : Pose2D.t) (t0 : R) :
  let v := Pose2D.lerp a b t0 in
  Rmin (Pose2D.x a) (Pose2D.x b) <= Pose2D.x v <= Rmax (Pose2D.x a) (Pose2D.x b)
  /\ Rmin (Pose2D.y a) (Pose2D.y b) <= Pose2D.y v <= Rmax (Pose2D.y a) (Pose2D.y b)
  /\ Rmin (Pose2D.theta a) (Pose2D.theta b) <= Pose2D.theta v
     <= Rmax (Pose2D.theta a) (Pose2D.theta b)
  /\ Pose2D.getDistance a v = Generic.guard t0 0 1 * Pose2D.getDistance a b
  /\ Pose2D.getDistance a v <= Pose2D.getDistance a b.
Proof.
  cbv zeta. rewrite Pose2D_lerp_formula. cbn [Pose2D.x Pose2D.y Pose2D.theta].
  pose proof (guard_unit_range t0) as Hc. set (c := Generic.guard t0 0 1) in *.
  assert (Hd : Pose2D.getDistance a
                 (Pose2D.mk (Pose2D.x a + (Pose2D.x b - Pose2D.x a) * c)
                            (Pose2D.y a + (Pose2D.y b - Pose2D.y a) * c)
                            (Pose2D.theta a + (Pose2D.theta b - Pose2D.theta a) * c))
               = c * Pose2D.getDistance a b).
  { unfold Pose2D.getDistance, Pose2D.magnitude, Pose2D.sqrMagnitude, Pose2D.sub.
    cbn [Pose2D.x Pose2D.y]. rewrite <- sqrt_scaled by lra. f_equal. ring. }
  repeat split; try (apply between_min_max; exact Hc); try exact Hd.
  rewrite Hd. assert (0 <= Pose2D.getDistance a b) by apply sqrt_pos. nra.
Qed.

(** X10: the midpoint does not depend on the order of the two poses and is at
    half the distance from each of them. *)
Theorem Pose2D_getMidpoint_halfway (a b : Pose2D.t) :
  Pose2D.getMidpoint a b = Pose2D.getMidpoint b a
  /\ Pose2D.getMidpoint a b
     = Pose2D.mk ((Pose2D.x a + Pose2D.x b) / 2) ((Pose2D.y a + Pose2D.y b) / 2)
                 ((Pose2D.theta a + Pose2D.theta b) / 2)
  /\ Pose2D.getDistance a (Pose2D.getMidpoint a b) = Pose2D.getDistance a b / 2
  /\ Pose2D.getDistance (Pose2D.getMidpoint a b) b = Pose2D.getDistance a b / 2.
Proof.
  assert (Hg : Generic.guard (1 / 2) 0 1 = 1 / 2).
  { destruct (guard_unit_cases (1 / 2)) as (_ & H & _). apply H. lra. }
  assert (Hm : forall p q, Pose2D.getMidpoint p q
                = Pose2D.mk ((Pose2D.x p + Pose2D.x q) / 2) ((Pose2D.y p + Pose2D.y q) / 2)
                            ((Pose2D.theta p + Pose2D.theta q) / 2)).
  { intros p q. unfold Pose2D.getMidpoint. rewrite Pose2D_lerp_formula, Hg. f_equal; field. }
  assert (Hhalf : forall ux uy, sqrt (ux / 2 * (ux / 2) + uy / 2 * (uy / 2))
                                = sqrt (ux * ux + uy * uy) / 2).
  { intros ux uy.
    replace (ux / 2 * (ux / 2) + uy / 2 * (uy / 2))
      with (1 / 2 * (1 / 2) * (ux * ux + uy * uy)) by field.
    rewrite sqrt_scaled by lra. field. }
  split; [| split; [apply Hm | split]].
  - rewrite !Hm. f_equal; field.
  - rewrite Hm. unfold Pose2D.getDistance, Pose2D.magnitude, Pose2D.sqrMagnitude, Pose2D.sub.
    cbn [Pose2D.x Pose2D.y]. rewrite <- Hhalf. f_equal. field.
  - rewrite Hm. unfold Pose2D.getDistance, Pose2D.magnitude, Pose2D.sqrMagnitude, Pose2D.sub.
    cbn [Pose2D.x Pose2D.y]. rewrite <- Hhalf. f_equal. field.
Qed.

(** ** Polar coordinates *)


(** ** Line2D: points of the segment *)









(** ** Line2D: the point of intersection *)

Lemma direction_cross_nonzero (line1 line2 : Line2D.t) :
  Rabs (direction_cross line1 line2) > Line2D.eps -> direction_cross line1 line2 <> 0.
Proof.
  intros H Hz. rewrite Hz, Rabs_R0 in H. pose proof eps_pos. lra.
Qed.

Lemma direction_cross_swap (line1 line2 : Line2D.t) :
  direction_cross line2 line1 = - direction_cross line1 line2.
Proof. unfold direction_cross, Pose2D.getCross. ring. Qed.





(** ** Line2D: the order of the two lines *)

Lemma intersection_point_swap (line1 line2 : Line2D.t) :
  direction_cross line1 line2 <> 0 ->
  Pose2D.x (spec_intersection_point line1 line2) = Pose2D.x (spec_intersection_point line2 line1)
  /\ Pose2D.y (spec_intersection_point line1 line2)
     = Pose2D.y (spec_intersection_point line2 line1).
Proof.
  unfold direction_cross, spec_intersection_point, Pose2D.getCross, Pose2D.sub, Pose2D.add,
    Pose2D.mul.
  cbn [Pose2D.x Pose2D.y Pose2D.theta]. intros H.
  split; field; split; intros Hz; apply H; lra.
Qed.


Lemma getIntersection_swap (line1 line2 : Line2D.t) :
  exists (f : bool) (p q : Pose2D.t),
    Line2D.getIntersection line1 line2 = ret (f, p)
    /\ Line2D.getIntersection line2 line1 = ret (f, q)
    /\ Pose2D.x p = Pose2D.x q /\ Pose2D.y p = Pose2D.y q.
Proof.
  destruct (Rle_dec (Rabs (direction_cross line1 line2)) Line2D.eps) as [Hle | Hgt].
  - exists false, (Pose2D.mk 0 0 0), (Pose2D.mk 0 0 0).
    split; [now apply getIntersection_parallel |].
    split; [| split; reflexivity].
    apply getIntersection_parallel. now rewrite direction_cross_swap, Rabs_Ropp.
  - assert (Hgt' : Rabs (direction_cross line1 line2) > Line2D.eps) by lra.
    exists true, (spec_intersection_point line1 line2), (spec_intersection_point line2 line1).
    split; [apply getIntersection_crossing; lra |].
    split; [apply getIntersection_crossing; rewrite direction_cross_swap, Rabs_Ropp; lra |].
    apply intersection_point_swap. now apply direction_cross_nonzero.
Qed.

(** X15: [getIntersection] gives the same flag and the same position (x, y)
    whichever of the two lines is passed first. *)
Theorem Line2D_getIntersection_symmetric (line1 line2 : Line2D.t) :
  exists (f : bool) (p q : Pose2D.t),
    Line2D.getIntersection line1 line2 = ret (f, p)
    /\ Line2D.getIntersection line2 line1 = ret (f, q)
    /\ Pose2D.x p = Pose2D.x q /\ Pose2D.y p = Pose2D.y q.
Proof. apply getIntersection_swap. Qed.



(** ** Line2D: the distances as geometry *)

Lemma line_coefficients_slanted (line : Line2D.t) :
  Rabs (Pose2D.x (Line2D.start line) - Pose2D.x (Line2D.end_ line)) > Line2D.eps ->
  spec_line_coefficients line
  = (spec_slope line, -1,
     - spec_slope line * Pose2D.x (Line2D.start line) + Pose2D.y (Line2D.start line)).
Proof.
  intros H. unfold spec_line_coefficients. now destruct (Rgt_dec _ _).
Qed.

Lemma line_coefficients_upright (line : Line2D.t) :
  Rabs (Pose2D.x (Line2D.start line) - Pose2D.x (Line2D.end_ line)) <= Line2D.eps ->
  spec_line_coefficients line = (1, 0, - Pose2D.x (Line2D.start line)).
Proof.
  intros H. unfold spec_line_coefficients. destruct (Rgt_dec _ _); [lra | reflexivity].
Qed.

Lemma Rabs_div (u v : R) : v <> 0 -> Rabs (u / v) = Rabs u / Rabs v.
Proof.
  intros Hv. unfold Rdiv. rewrite Rabs_mult. now rewrite Rabs_inv.
Qed.

(** The perpendicular distance of a slanted line is the cross product of the
    direction with the offset of the point, over the length. *)
Lemma slanted_distance (sx sy ex ey px py : R) :
  ex - sx <> 0 ->
  Rabs ((ey - sy) / (ex - sx) * px + -1 * py + (- ((ey - sy) / (ex - sx)) * sx + sy))
  / sqrt ((ey - sy) / (ex - sx) * ((ey - sy) / (ex - sx)) + -1 * -1)
  = Rabs ((ex - sx) * (py - sy) - (ey - sy) * (px - sx))
    / sqrt ((ex - sx) * (ex - sx) + (ey - sy) * (ey - sy)).
Proof.
  intros Hd. set (dx := ex - sx) in *. set (dy := ey - sy).
  assert (Hadx : 0 < Rabs dx) by now apply Rabs_pos_lt.
  assert (Hn : 0 < sqrt (dx * dx + dy * dy)).
  { apply sqrt_lt_R0. assert (0 < dx * dx) by nra. nra. }
  assert (Hs : sqrt (dy / dx * (dy / dx) + -1 * -1) = sqrt (dx * dx + dy * dy) / Rabs dx).
  { apply sqrt_lem_1.
    - apply Rplus_le_le_0_compat; [apply Rle_0_sqr | lra].
    - apply Rlt_le. apply Rdiv_lt_0_compat; assumption.
    - replace (sqrt (dx * dx + dy * dy) / Rabs dx * (sqrt (dx * dx + dy * dy) / Rabs dx))
        with (sqrt (dx * dx + dy * dy) * sqrt (dx * dx + dy * dy) / (Rabs dx * Rabs dx))
        by (field; lra).
      rewrite sqrt_sqrt by nra.
      replace (Rabs dx * Rabs dx) with (dx * dx)
        by (unfold Rabs; destruct (Rcase_abs dx); ring).
      field. exact Hd. }
  rewrite Hs.
  replace (dy / dx * px + -1 * py + (- (dy / dx) * sx + sy))
    with (- (dx * (py - sy) - dy * (px - sx)) / dx) by (field; exact Hd).
  rewrite Rabs_div by exact Hd. rewrite Rabs_Ropp. field. split; lra.
Qed.

(** X18: for a line with [|start.x - end.x| > eps], the value of
    [getDistanceFromPointToLine] is the geometric distance from the point to
    the infinite line: [|cross(end - start, p - start)|] over the length of
    the line; the orientations play no part. *)
Theorem Line2D_getDistanceFromPointToLine_geometric (pose : Pose2D.t) (line : Line2D.t) :
  Rabs (Pose2D.x (Line2D.start line) - Pose2D.x (Line2D.end_ line)) > Line2D.eps ->
  value (Line2D.getDistanceFromPointToLine pose line)
  = Some (Rabs (Pose2D.getCross (Pose2D.sub (Line2D.end_ line) (Line2D.start line))
                                (Pose2D.sub pose (Line2D.start line)))
          / Line2D.getLength line).
Proof.
  intros H. rewrite getDistanceFromPointToLine_runs, (line_coefficients_slanted line H).
  unfold value, spec_perpendicular_distance, spec_slope. cbn [option_map fst].
  f_equal.
  assert (Hd : Pose2D.x (Line2D.end_ line) - Pose2D.x (Line2D.start line) <> 0).
  { intros Hz. replace (Pose2D.x (Line2D.start line) - Pose2D.x (Line2D.end_ line))
      with 0 in H by lra.
    rewrite Rabs_R0 in H. pose proof eps_pos. lra. }
  rewrite (slanted_distance _ _ _ _ _ _ Hd).
  unfold Line2D.getLength, Pose2D.getDistance, Pose2D.magnitude, Pose2D.sqrMagnitude,
    Pose2D.getCross, Pose2D.sub.
  cbn [Pose2D.x Pose2D.y]. reflexivity.
Qed.

Lemma slanted_line_example :
  Rabs (Pose2D.x (Line2D.start (Line2D.of_coords 0 0 4 3))
        - Pose2D.x (Line2D.end_ (Line2D.of_coords 0 0 4 3))) > Line2D.eps.
Proof.
  rewrite of_coords_fields. cbn [Pose2D.x Line2D.start Line2D.end_]. real_cases.
Qed.

Lemma Line2D_getDistanceFromPointToLine_geometric_witness :
  value (Line2D.getDistanceFromPointToLine (Pose2D.of_xy 0 5) (Line2D.of_coords 0 0 4 3))
  = Some (Rabs (Pose2D.getCross
                  (Pose2D.sub (Line2D.end_ (Line2D.of_coords 0 0 4 3))
                              (Line2D.start (Line2D.of_coords 0 0 4 3)))
                  (Pose2D.sub (Pose2D.of_xy 0 5) (Line2D.start (Line2D.of_coords 0 0 4 3))))
          / Line2D.getLength (Line2D.of_coords 0 0 4 3)).
Proof.
  apply (Line2D_getDistanceFromPointToLine_geometric
           (Pose2D.of_xy 0 5) (Line2D.of_coords 0 0 4 3)).
  exact slanted_line_example.
Defined.

(** X19: for a line with [|start.x - end.x| <= eps] (upright, nearly upright,
    or of length zero) [getDistanceFromPointToLine] returns the horizontal
    offset [|p.x - start.x|]: the [y] of the point and the [y] of both end
    points are ignored, so every point straight above or below [start] is at
    distance 0 even from a line of length zero. *)
Theorem Line2D_getDistanceFromPointToLine_upright (pose : Pose2D.t) (line : Line2D.t) :
  Rabs (Pose2D.x (Line2D.start line) - Pose2D.x (Line2D.end_ line)) <= Line2D.eps ->
  value (Line2D.getDistanceFromPointToLine pose line)
  = Some (Rabs (Pose2D.x pose - Pose2D.x (Line2D.start line)))
  /\ (Pose2D.x pose = Pose2D.x (Line2D.start line) ->
      value (Line2D.getDistanceFromPointToLine pose line) = Some 0).
Proof.
  intros H.
  assert (Hv : value (Line2D.getDistanceFromPointToLine pose line)
               = Some (Rabs (Pose2D.x pose - Pose2D.x (Line2D.start line)))).
  { rewrite getDistanceFromPointToLine_runs, (line_coefficients_upright line H).
    unfold value, spec_perpendicular_distance. cbn [option_map fst]. f_equal.
    rewrite (sqrt_of_square (1 * 1 + 0 * 0) 1) by lra.
    replace (1 * Pose2D.x pose + 0 * Pose2D.y pose + - Pose2D.x (Line2D.start line))
      with (Pose2D.x pose - Pose2D.x (Line2D.start line)) by ring.
    field. }
  split; [exact Hv |]. intros Hx. rewrite Hv, Hx.
  replace (Pose2D.x (Line2D.start line) - Pose2D.x (Line2D.start line)) with 0 by ring.
  now rewrite Rabs_R0.
Qed.

Lemma zero_length_line_example :
  Rabs (Pose2D.x (Line2D.start (Line2D.of_coords 3 1 3 1))
        - Pose2D.x (Line2D.end_ (Line2D.of_coords 3 1 3 1))) <= Line2D.eps.
Proof.
  rewrite of_coords_fields. cbn [Pose2D.x Line2D.start Line2D.end_]. real_cases.
Qed.

Lemma Line2D_getDistanceFromPointToLine_upright_witness :
  value (Line2D.getDistanceFromPointToLine (Pose2D.of_xy 3 9) (Line2D.of_coords 3 1 3 1))
  = Some (Rabs (Pose2D.x (Pose2D.of_xy 3 9) - Pose2D.x (Line2D.start (Line2D.of_coords 3 1 3 1))))
  /\ (Pose2D.x (Pose2D.of_xy 3 9) = Pose2D.x (Line2D.start (Line2D.of_coords 3 1 3 1)) ->
      value (Line2D.getDistanceFromPointToLine (Pose2D.of_xy 3 9) (Line2D.of_coords 3 1 3 1))
      = Some 0).
Proof.
  apply (Line2D_getDistanceFromPointToLine_upright
           (Pose2D.of_xy 3 9) (Line2D.of_coords 3 1 3 1)).
  exact zero_length_line_example.
Defined.

(** ** Line2D: bounds on the distance to a segment *)

Lemma Rabs_cauchy (a b u v : R) :
  Rabs (a * u + b * v) <= sqrt (a * a + b * b) * sqrt (u * u + v * v).
Proof.
  pose proof (sqrt_cauchy a b u v) as H1. pose proof (sqrt_cauchy a b (- u) (- v)) as H2.
  unfold Rsqr in H1, H2.
  replace (- u * - u + - v * - v) with (u * u + v * v) in H2 by ring.
  unfold Rabs. destruct (Rcase_abs (a * u + b * v)); lra.
Qed.

(** The perpendicular distance is at most the distance to any point of the
    line [a x + b y + c = 0]. *)
Lemma perpendicular_le_point (a b c px py qx qy : R) :
  0 < a * a + b * b ->
  a * qx + b * qy + c = 0 ->
  Rabs (a * px + b * py + c) / sqrt (a * a + b * b)
  <= sqrt ((qx - px) * (qx - px) + (qy - py) * (qy - py)).
Proof.
  intros Hn Hq.
  assert (Hs : 0 < sqrt (a * a + b * b)) by now apply sqrt_lt_R0.
  replace (a * px + b * py + c) with (a * (px - qx) + b * (py - qy)) by lra.
  pose proof (Rabs_cauchy a b (px - qx) (py - qy)) as Hc.
  replace ((px - qx) * (px - qx) + (py - qy) * (py - qy))
    with ((qx - px) * (qx - px) + (qy - py) * (qy - py)) in Hc by ring.
  apply Rmult_le_reg_r with (sqrt (a * a + b * b)); [exact Hs |].
  replace (Rabs (a * (px - qx) + b * (py - qy)) / sqrt (a * a + b * b)
           * sqrt (a * a + b * b))
    with (Rabs (a * (px - qx) + b * (py - qy))) by (field; lra).
  lra.
Qed.

Lemma start_on_implicit_line (line : Line2D.t) :
  let '(a, b, c) := spec_line_coefficients line in
  a * Pose2D.x (Line2D.start line) + b * Pose2D.y (Line2D.start line) + c = 0.
Proof.
  unfold spec_line_coefficients. destruct (Rgt_dec _ _); ring.
Qed.

Lemma end_on_implicit_line (line : Line2D.t) :
  Rabs (Pose2D.x (Line2D.start line) - Pose2D.x (Line2D.end_ line)) > Line2D.eps
  \/ Pose2D.x (Line2D.start line) = Pose2D.x (Line2D.end_ line) ->
  let '(a, b, c) := spec_line_coefficients line in
  a * Pose2D.x (Line2D.end_ line) + b * Pose2D.y (Line2D.end_ line) + c = 0.
Proof.
  intros H. unfold spec_line_coefficients, spec_slope.
  destruct (Rgt_dec _ _) as [Hgt | Hle].
  - field. intros Hz.
    replace (Pose2D.x (Line2D.start line) - Pose2D.x (Line2D.end_ line)) with 0 in Hgt by lra.
    rewrite Rabs_R0 in Hgt. pose proof eps_pos. lra.
  - destruct H as [H | H]; [lra | rewrite H; ring].
Qed.

Lemma perpendicular_distance_nonneg (line : Line2D.t) (pose : Pose2D.t) :
  0 <= spec_perpendicular_distance (spec_line_coefficients line) pose.
Proof.
  pose proof (line_coefficients_norm_pos line) as Hn.
  destruct (spec_line_coefficients line) as [[a b] c]. unfold spec_perpendicular_distance.
  apply Rmult_le_pos; [apply Rabs_pos |].
  apply Rlt_le, Rinv_0_lt_compat. now apply sqrt_lt_R0.
Qed.

Lemma perpendicular_le_start (line : Line2D.t) (pose : Pose2D.t) :
  spec_perpendicular_distance (spec_line_coefficients line) pose
  <= Pose2D.getDistance pose (Line2D.start line).
Proof.
  pose proof (line_coefficients_norm_pos line) as Hn.
  pose proof (start_on_implicit_line line) as Hs.
  destruct (spec_line_coefficients line) as [[a b] c]. unfold spec_perpendicular_distance.
  unfold Pose2D.getDistance, Pose2D.magnitude, Pose2D.sqrMagnitude, Pose2D.sub.
  cbn [Pose2D.x Pose2D.y]. now apply perpendicular_le_point.
Qed.

Lemma perpendicular_le_end (line : Line2D.t) (pose : Pose2D.t) :
  Rabs (Pose2D.x (Line2D.start line) - Pose2D.x (Line2D.end_ line)) > Line2D.eps
  \/ Pose2D.x (Line2D.start line) = Pose2D.x (Line2D.end_ line) ->
  spec_perpendicular_distance (spec_line_coefficients line) pose
  <= Pose2D.getDistance pose (Line2D.end_ line).
Proof.
  intros H. pose proof (line_coefficients_norm_pos line) as Hn.
  pose proof (end_on_implicit_line line H) as He.
  destruct (spec_line_coefficients line) as [[a b] c]. unfold spec_perpendicular_distance.
  unfold Pose2D.getDistance, Pose2D.magnitude, Pose2D.sqrMagnitude, Pose2D.sub.
  cbn [Pose2D.x Pose2D.y]. now apply perpendicular_le_point.
Qed.

(** X20: the distance from a point to a segment is defined for every point
    and every line, is never negative and never exceeds the distance from the
    point to [start]; in particular the distance from [start] itself is 0. *)
Theorem Line2D_segment_distance_bounded_by_start (pose : Pose2D.t) (line : Line2D.t) :
  (exists d : R,
      Line2D.getDistanceFromPointToLineWithinRange pose line = ret d
      /\ 0 <= d <= Pose2D.getDistance pose (Line2D.start line))
  /\ Line2D.getDistanceFromPointToLineWithinRange (Line2D.start line) line = ret 0.
Proof.
  assert (Hb : forall p, exists d : R,
             Line2D.getDistanceFromPointToLineWithinRange p line = ret d
             /\ 0 <= d <= Pose2D.getDistance p (Line2D.start line)).
  { intros p. rewrite getDistanceFromPointToLineWithinRange_runs. eexists. split; [reflexivity |].
    destruct (Line2D.isPointOnLineWithinRange line _).
    - split; [apply perpendicular_distance_nonneg | apply perpendicular_le_start].
    - split; [| apply Rmin_l].
      apply Rmin_glb; apply sqrt_pos. }
  split; [apply Hb |].
  destruct (Hb (Line2D.start line)) as (d & Hd & Hlo & Hhi).
  rewrite Hd. do 2 f_equal.
  assert (Hz : Pose2D.getDistance (Line2D.start line) (Line2D.start line) = 0).
  { unfold Pose2D.getDistance, Pose2D.magnitude, Pose2D.sqrMagnitude, Pose2D.sub.
    cbn [Pose2D.x Pose2D.y].
    match goal with |- sqrt ?e = 0 => replace e with 0 by ring end. apply sqrt_0. }
  lra.
Qed.

(** X21: for a line with [|start.x - end.x| > eps], or exactly upright
    ([start.x = end.x]), the distance to the segment lies between the
    distance to the infinite line and the distance to the nearer end point. *)
Theorem Line2D_segment_distance_between (pose : Pose2D.t) (line : Line2D.t) :
  Rabs (Pose2D.x (Line2D.start line) - Pose2D.x (Line2D.end_ line)) > Line2D.eps
  \/ Pose2D.x (Line2D.start line) = Pose2D.x (Line2D.end_ line) ->
  exists d dl : R,
    Line2D.getDistanceFromPointToLineWithinRange pose line = ret d
    /\ value (Line2D.getDistanceFromPointToLine pose line) = Some dl
    /\ dl <= d
    /\ d <= Rmin (Pose2D.getDistance pose (Line2D.start line))
                 (Pose2D.getDistance pose (Line2D.end_ line)).
Proof.
  intros H. rewrite getDistanceFromPointToLineWithinRange_runs, getDistanceFromPointToLine_runs.
  pose proof (perpendicular_le_start line pose) as Hs.
  pose proof (perpendicular_le_end line pose H) as He.
  exists (if Line2D.isPointOnLineWithinRange line
               (spec_perpendicular_foot (spec_line_coefficients line) pose)
          then spec_perpendicular_distance (spec_line_coefficients line) pose
          else Rmin (Pose2D.getDistance pose (Line2D.start line))
                    (Pose2D.getDistance pose (Line2D.end_ line))),
         (spec_perpendicular_distance (spec_line_coefficients line) pose).
  split; [reflexivity |]. split.
  - destruct (spec_line_coefficients line) as [[a b] c]. reflexivity.
  - destruct (Line2D.isPointOnLineWithinRange line _).
    + split; [lra | now apply Rmin_glb].
    + split; [now apply Rmin_glb | lra].
Qed.

Lemma Line2D_segment_distance_between_witness :
  exists d dl : R,
    Line2D.getDistanceFromPointToLineWithinRange (Pose2D.of_xy 0 5) (Line2D.of_coords 0 0 4 3)
    = ret d
    /\ value (Line2D.getDistanceFromPointToLine (Pose2D.of_xy 0 5) (Line2D.of_coords 0 0 4 3))
       = Some dl
    /\ dl <= d
    /\ d <= Rmin (Pose2D.getDistance (Pose2D.of_xy 0 5)
                    (Line2D.start (Line2D.of_coords 0 0 4 3)))
                 (Pose2D.getDistance (Pose2D.of_xy 0 5)
                    (Line2D.end_ (Line2D.of_coords 0 0 4 3))).
Proof.
  apply (Line2D_segment_distance_between (Pose2D.of_xy 0 5) (Line2D.of_coords 0 0 4 3)).
  left. exact slanted_line_example.
Defined.

(** ** PID: one update *)

Lemma PID_update_defined (s : PID.t) (target now_val dt : R) :
  dt <> 0 ->
  PID.update s target now_val dt
  = let e := target - now_val in
    let i := spec_pid_integral s e dt in
    let raw := spec_pid_raw s e i now_val dt in
    ret (PID.mk (PID._param s) e e (PID._diff1 s) now_val target i
           (if PID.need_saturation (PID._param s)
            then Generic.guard raw (PID.output_min (PID._param s))
                                   (PID.output_max (PID._param s))
            else raw)).
Proof.
  intros Hdt. destruct s as [[m g sat lo hi] d0 d1 d2 pv pt i o].
  unfold spec_pid_raw, spec_pid_integral.
  cbv beta iota zeta delta
    [PID.update PID.calculate_pPID PID.calculate_sPID PID.calculate_PI_D PID.calculate_I_PD
     PID._param PID._diff0 PID._diff1 PID._diff2 PID._prev_val PID._prev_target
     PID._integral PID._output PID.mode PID.gain PID.need_saturation PID.output_min
     PID.output_max].
  destruct m; rewrite divide_nonzero by exact Hdt; rewrite bind_ret;
    destruct sat; reflexivity.
Qed.

Lemma PID_update_zero_dt (s : PID.t) (target now_val : R) :
  PID.update s target now_val 0 = None.
Proof.
  destruct s as [[m g sat lo hi] d0 d1 d2 pv pt i o].
  cbv beta iota zeta delta
    [PID.update PID.calculate_pPID PID.calculate_sPID PID.calculate_PI_D PID.calculate_I_PD
     PID._param PID._diff0 PID._diff1 PID._diff2 PID._prev_val PID._prev_target
     PID._integral PID._output PID.mode PID.gain PID.need_saturation PID.output_min
     PID.output_max].
  destruct m; now rewrite divide_zero.
Qed.

(** X22: [PID::update] has a value exactly when [dt] is not zero (each of the
    four modes divides by [dt]); it never changes the parameters, and it
    records the sample: the new error in [_diff[0]] and [_diff[1]], the
    previous error in [_diff[2]], and the sample in [_prev_val] and
    [_prev_target]. *)
Theorem PID_update_defined_iff (s : PID.t) (target now_val dt : R) :
  (PID.update s target now_val dt = None <-> dt = 0)
  /\ (forall s', PID.update s target now_val dt = ret s' ->
        PID._param s' = PID._param s
        /\ PID._diff0 s' = target - now_val
        /\ PID._diff1 s' = target - now_val
        /\ PID._diff2 s' = PID._diff1 s
        /\ PID._prev_val s' = now_val
        /\ PID._prev_target s' = target).
Proof.
  destruct (Req_dec_T dt 0) as [-> | Hdt].
  - rewrite PID_update_zero_dt. split; [tauto | discriminate].
  - rewrite (PID_update_defined s target now_val dt Hdt). cbv zeta. split.
    + split; [discriminate | contradiction].
    + intros s' H. injection H as <-. repeat split.
Qed.

(** X23: with the saturation switched on and [output_min <= output_max], the
    control value after any update with [dt <> 0] lies in
    [[output_min, output_max]], whatever the mode, the gains and the history. *)
Theorem PID_update_saturates (s : PID.t) (target now_val dt : R) :
  dt <> 0 ->
  PID.need_saturation (PID._param s) = true ->
  PID.output_min (PID._param s) <= PID.output_max (PID._param s) ->
  exists s', PID.update s target now_val dt = ret s'
             /\ PID.output_min (PID._param s) <= PID.getControlValue s'
                <= PID.output_max (PID._param s).
Proof.
  intros Hdt Hsat Hb. rewrite (PID_update_defined s target now_val dt Hdt). cbv zeta.
  eexists. split; [reflexivity |].
  unfold PID.getControlValue. cbn [PID._output]. rewrite Hsat.
  set (raw := spec_pid_raw _ _ _ _ _).
  destruct (guard_cases raw (PID.output_min (PID._param s)) (PID.output_max (PID._param s)))
    as (H1 & H2 & H3).
  destruct (Rlt_dec raw (PID.output_min (PID._param s))); [rewrite H1; lra |].
  destruct (Rlt_dec (PID.output_max (PID._param s)) raw); [rewrite H2; lra | rewrite H3; lra].
Qed.

Lemma PID_update_saturates_witness :
  let s := PID.setSaturation
             (PID.reset (PID.mk (PID.mk_param PID.pPID (PID.mk_gain 2 0 0) false 0 0)
                                0 0 0 0 0 0 0)) (- (1)) 1 in
  exists s', PID.update s 10 0 1 = ret s'
             /\ PID.output_min (PID._param s) <= PID.getControlValue s'
                <= PID.output_max (PID._param s).
Proof.
  cbv zeta.
  apply (PID_update_saturates
           (PID.setSaturation
              (PID.reset (PID.mk (PID.mk_param PID.pPID (PID.mk_gain 2 0 0) false 0 0)
                                 0 0 0 0 0 0 0)) (- (1)) 1) 10 0 1).
  - lra.
  - reflexivity.
  - cbn. lra.
Defined.

(** ** PID: the integral over a run of samples *)

Lemma PID_run_constant_error (target now_val dt : R) (n : nat) :
  dt <> 0 ->
  forall s : PID.t,
    PID._diff1 s = target - now_val ->
    exists s', PID.run s (repeat (target, now_val, dt) n) = ret s'
               /\ PID._integral s' = PID._integral s + (target - now_val) * dt * INR n
               /\ PID._diff1 s' = target - now_val
               /\ PID._param s' = PID._param s.
Proof.
  intros Hdt. induction n as [| n IH]; intros s Hd.
  - exists s. cbn [repeat PID.run INR]. repeat split; try assumption. ring.
  - cbn [repeat PID.run]. rewrite (PID_update_defined s target now_val dt Hdt), bind_ret.
    cbv zeta.
    match goal with |- exists s', PID.run ?s1 _ = _ /\ _ => destruct (IH s1) as (s' & Hr & Hi & Hd' & Hp) end.
    { reflexivity. }
    exists s'. split; [exact Hr |]. split; [| split; [exact Hd' | exact Hp]].
    rewrite Hi. cbn [PID._integral]. unfold spec_pid_integral. rewrite Hd, S_INR. field.
Qed.

(** X24: starting from [reset] and feeding [n + 1] samples with the same
    target, the same measurement and the same [dt <> 0], the run is defined
    and the integral is the trapezoid sum [(target - now_val) * dt * (n + 1/2)]:
    the first sample counts for half a step because the error before it is
    taken as 0. *)
Theorem PID_integral_of_constant_error (s : PID.t) (target now_val dt : R) (n : nat) :
  dt <> 0 ->
  exists s', PID.run (PID.reset s) (repeat (target, now_val, dt) (S n)) = ret s'
             /\ PID._integral s' = (target - now_val) * dt * (INR n + 1 / 2)
             /\ PID._param s' = PID._param s.
Proof.
  intros Hdt. cbn [repeat PID.run].
  rewrite (PID_update_defined (PID.reset s) target now_val dt Hdt), bind_ret. cbv zeta.
  match goal with |- exists s', PID.run ?s1 _ = _ /\ _ =>
    destruct (PID_run_constant_error target now_val dt n Hdt s1) as (s' & Hr & Hi & _ & Hp)
  end.
  { reflexivity. }
  exists s'. split; [exact Hr |]. split; [| exact Hp].
  rewrite Hi. cbn [PID._integral]. unfold spec_pid_integral, PID.reset.
  cbn [PID._integral PID._diff1]. field.
Qed.

Lemma PID_integral_of_constant_error_witness :
  exists s',
    PID.run (PID.reset (PID.mk (PID.mk_param PID.pPID (PID.mk_gain 1 1 0) false 0 0)
                               0 0 0 0 0 0 0))
            (repeat (1, 0, 1 / 10) 3) = ret s'
    /\ PID._integral s' = (1 - 0) * (1 / 10) * (INR 2 + 1 / 2)
    /\ PID._param s' = PID.mk_param PID.pPID (PID.mk_gain 1 1 0) false 0 0.
Proof.
  apply (PID_integral_of_constant_error
           (PID.mk (PID.mk_param PID.pPID (PID.mk_gain 1 1 0) false 0 0) 0 0 0 0 0 0 0)
           1 0 (1 / 10) 2).
  lra.
Defined.

(** ** PolygonMsgGenerator: translation *)

Lemma at_index_middle {A : Type} (done todo : list A) (a : A) :
  at_index (done ++ a :: todo) (List.length done) = Some a.
Proof.
  unfold at_index. induction done as [| d done IH]; [reflexivity | exact IH].
Qed.

Lemma assign_index_middle {A : Type} (done todo : list A) (a b : A) :
  assign_index (done ++ a :: todo) (List.length done) b = done ++ b :: todo.
Proof.
  induction done as [| d done IH]; [reflexivity |].
  cbn [app List.length assign_index]. now rewrite IH.
Qed.

Lemma translation_loop (x y : R) (todo done : list Point32.t) :
  fold_left (PolygonMsgGenerator.translation_step x y)
            (seq (List.length done) (List.length todo))
            (Some (Polygon.mk (done ++ todo)))
  = Some (Polygon.mk (done ++ map (spec_moved x y) todo)).
Proof.
  revert done. induction todo as [| p todo IH]; intros done; [reflexivity |].
  cbn [List.length seq fold_left map].
  unfold PolygonMsgGenerator.translation_step at 2. cbn [Polygon.points].
  rewrite at_index_middle, assign_index_middle.
  replace (done ++ MsgGenerator.toPoint32 (Point32.x p + x) (Point32.y p + y) 0 :: todo)
    with ((done ++ [spec_moved x y p]) ++ todo) by (now rewrite <- app_assoc).
  replace (S (List.length done)) with (List.length (done ++ [spec_moved x y p]))
    by (rewrite length_app; cbn; lia).
  rewrite IH. now rewrite <- app_assoc.
Qed.

Lemma translation_map (polygon : Polygon.t) (x y : R) :
  PolygonMsgGenerator.translation polygon x y
  = Some (Polygon.mk (map (spec_moved x y) (Polygon.points polygon))).
Proof.
  unfold PolygonMsgGenerator.translation, Polygon.size. destruct polygon as [pts].
  cbn [Polygon.points]. exact (translation_loop x y pts []).
Qed.

(** X25: [translation] never reads or writes outside the polygon: it returns
    a polygon with the same number of points, each moved by [(x, y)] and put
    on [z = 0]; translating twice is translating by the sum of the offsets. *)
Theorem PolygonMsgGenerator_translation_moves (polygon : Polygon.t) (x y x2 y2 : R) :
  exists q q2,
    PolygonMsgGenerator.translation polygon x y = Some q
    /\ Polygon.points q
       = map (fun p => Point32.mk (Point32.x p + x) (Point32.y p + y) 0)
             (Polygon.points polygon)
    /\ Polygon.size q = Polygon.size polygon
    /\ PolygonMsgGenerator.translation q x2 y2 = Some q2
    /\ PolygonMsgGenerator.translation polygon (x + x2) (y + y2) = Some q2.
Proof.
  exists (Polygon.mk (map (spec_moved x y) (Polygon.points polygon))),
         (Polygon.mk (map (spec_moved x2 y2) (map (spec_moved x y) (Polygon.points polygon)))).
  rewrite !translation_map. cbn [Polygon.points].
  split; [reflexivity |]. split; [reflexivity |].
  split; [unfold Polygon.size; cbn [Polygon.points]; apply length_map |].
  split; [reflexivity |]. do 2 f_equal.
  rewrite map_map. apply map_ext. intros p. unfold spec_moved. cbn [Point32.x Point32.y].
  f_equal; ring.
Qed.

(** ** PolygonMsgGenerator: fromVector *)

Lemma fold_left_failed {A B : Type} (f : option A -> B -> option A) (l : list B) :
  (forall b, f None b = None) -> fold_left f l None = None.
Proof.
  intros Hf. induction l as [| b l IH]; [reflexivity |]. cbn [fold_left]. now rewrite Hf.
Qed.

Lemma fromVector_loop (done todo : list (list R)) (acc : list Point32.t) :
  Forall (fun row => (2 <= List.length row)%nat) todo ->
  fold_left (PolygonMsgGenerator.fromVector_step (done ++ todo))
            (seq (List.length done) (List.length todo)) (Some (Polygon.mk acc))
  = Some (Polygon.mk
            (acc ++ map (fun row => Point32.mk (nth 0 row 0) (nth 1 row 0) 0) todo)).
Proof.
  revert done acc. induction todo as [| row todo IH]; intros done acc Hall.
  - cbn. now rewrite app_nil_r.
  - inversion Hall as [| ? ? Hrow Hrest]; subst.
    cbn [List.length seq fold_left map].
    unfold PolygonMsgGenerator.fromVector_step at 2.
    rewrite at_index_middle.
    destruct row as [| r0 [| r1 row]]; [cbn in Hrow; lia | cbn in Hrow; lia |].
    cbn [at_index nth_error nth]. unfold Polygon.push_back. cbn [Polygon.points].
    replace (done ++ (r0 :: r1 :: row) :: todo)
      with ((done ++ [r0 :: r1 :: row]) ++ todo) by (now rewrite <- app_assoc).
    replace (S (List.length done)) with (List.length (done ++ [r0 :: r1 :: row]))
      by (rewrite length_app; cbn; lia).
    rewrite (IH _ _ Hrest). now rewrite <- app_assoc.
Qed.

Lemma fromVector_loop_short (done todo : list (list R)) (acc : option Polygon.t) :
  Exists (fun row => (List.length row < 2)%nat) todo ->
  fold_left (PolygonMsgGenerator.fromVector_step (done ++ todo))
            (seq (List.length done) (List.length todo)) acc
  = None.
Proof.
  revert done acc. induction todo as [| row todo IH]; intros done acc Hex.
  - inversion Hex.
  - cbn [List.length seq fold_left].
    replace (done ++ row :: todo) with ((done ++ [row]) ++ todo) by (now rewrite <- app_assoc).
    replace (S (List.length done)) with (List.length (done ++ [row]))
      by (rewrite length_app; cbn; lia).
    inversion Hex as [? ? Hshort | ? ? Hlater]; subst.
    + assert (Hstep : PolygonMsgGenerator.fromVector_step ((done ++ [row]) ++ todo) acc
                        (List.length done) = None).
      { unfold PolygonMsgGenerator.fromVector_step. destruct acc as [acc |]; [| reflexivity].
        rewrite <- app_assoc. cbn [app]. rewrite at_index_middle.
        destruct row as [| r0 [| r1 row]]; [reflexivity | reflexivity | cbn in Hshort; lia]. }
      rewrite Hstep. apply fold_left_failed. reflexivity.
    + now apply IH.
Qed.

(** X26: [fromVector] makes one point per row from the first two numbers of
    the row (any further numbers are ignored, [z] is 0), and the empty list
    gives the empty polygon; but a row with fewer than two numbers is read
    outside its bounds, where the function has no value. *)
Theorem PolygonMsgGenerator_fromVector_rows (std_vector : list (list R)) :
  (Forall (fun row => (2 <= List.length row)%nat) std_vector ->
   PolygonMsgGenerator.fromVector std_vector
   = Some (Polygon.mk (map (fun row => Point32.mk (nth 0 row 0) (nth 1 row 0) 0) std_vector)))
  /\ (Exists (fun row => (List.length row < 2)%nat) std_vector ->
      PolygonMsgGenerator.fromVector std_vector = None)
  /\ PolygonMsgGenerator.fromVector [] = Some Polygon.empty
  /\ PolygonMsgGenerator.fromVector [[1; 2; 3]; [4]] = None.
Proof.
  split; [| split; [| split]].
  - intros H. exact (fromVector_loop [] std_vector [] H).
  - intros H. exact (fromVector_loop_short [] std_vector _ H).
  - reflexivity.
  - reflexivity.
Qed.

(** ** PolygonMsgGenerator: ellipses and circles *)

Lemma toEllipse_loop (width height : R) (resolution : Z) :
  IZR resolution <> 0 ->
  forall (n k : nat) (acc : list Point32.t),
    fold_left (PolygonMsgGenerator.toEllipse_step width height resolution) (seq k n)
              (ret (Polygon.mk acc))
    = ret (Polygon.mk (acc ++ map (spec_ellipse_vertex width height resolution) (seq k n))).
Proof.
  intros Hres. induction n as [| n IH]; intros k acc.
  - cbn. now rewrite app_nil_r.
  - cbn [seq fold_left map].
    unfold PolygonMsgGenerator.toEllipse_step at 2.
    rewrite bind_ret, !divide_nonzero by exact Hres. rewrite !bind_ret.
    unfold Polygon.push_back. cbn [Polygon.points].
    rewrite IH. now rewrite <- app_assoc.
Qed.

Lemma toEllipse_runs (x y width height : R) (resolution : Z) :
  PolygonMsgGenerator.toEllipse x y width height resolution
  = ret (Some (Polygon.mk
                 (map (spec_moved x y)
                      (map (spec_ellipse_vertex width height resolution)
                           (seq 0 (Z.to_nat resolution)))))).
Proof.
  unfold PolygonMsgGenerator.toEllipse. change Polygon.empty with (Polygon.mk []).
  destruct (Z.to_nat resolution) as [| n] eqn:Hn.
  - cbn [seq fold_left map]. now rewrite bind_ret, translation_map.
  - assert (Hres : IZR resolution <> 0).
    { apply not_0_IZR. intros Hz. subst resolution. discriminate. }
    rewrite (toEllipse_loop width height resolution Hres (S n) 0 []), bind_ret.
    now rewrite translation_map.
Qed.

Lemma ellipse_vertex_in (x y width height : R) (resolution : Z) (n : nat) (p : Point32.t) :
  In p (map (spec_moved x y) (map (spec_ellipse_vertex width height resolution) (seq 0 n))) ->
  exists a : R,
    p = Point32.mk (width / 2 * cos a + x) (height / 2 * sin a + y) 0.
Proof.
  intros Hin. apply in_map_iff in Hin as (v & <- & Hv).
  apply in_map_iff in Hv as (i & <- & _).
  exists (INR i * 2 * PI / IZR resolution). reflexivity.
Qed.

(** X27: [toEllipse] never divides by zero, also for [resolution = 0]: it
    returns [resolution] vertices (none when [resolution <= 0]), all on
    [z = 0] and all on the ellipse of centre [(x, y)] and axes [width] and
    [height]; the vertex of index [i] is at the angle [2 PI i / resolution]. *)
Theorem PolygonMsgGenerator_toEllipse_vertices
  (x y width height : R) (resolution : Z) :
  (resolution <= 2 ^ 30)%Z ->
  exists q : Polygon.t,
    PolygonMsgGenerator.toEllipse x y width height resolution = ret (Some q)
    /\ Polygon.size q = Z.to_nat resolution
    /\ (forall i : nat, (i < Z.to_nat resolution)%nat ->
          at_index (Polygon.points q) i
          = Some (Point32.mk (width / 2 * cos (INR i * 2 * PI / IZR resolution) + x)
                             (height / 2 * sin (INR i * 2 * PI / IZR resolution) + y)
                             0))
    /\ (forall p : Point32.t, In p (Polygon.points q) ->
          Point32.z p = 0
          /\ ((Point32.x p - x) * (height / 2)) * ((Point32.x p - x) * (height / 2))
             + ((Point32.y p - y) * (width / 2)) * ((Point32.y p - y) * (width / 2))
             = (width / 2 * (height / 2)) * (width / 2 * (height / 2))).
Proof.
  intros _. rewrite toEllipse_runs. eexists. split; [reflexivity |].
  cbn [Polygon.points]. unfold Polygon.size. cbn [Polygon.points].
  split; [now rewrite !length_map, length_seq |]. split.
  - intros i Hi. unfold at_index. rewrite map_map.
    rewrite nth_error_map, nth_error_seq.
    destruct (Nat.ltb_spec i (Z.to_nat resolution)) as [_ | Hge]; [| lia].
    reflexivity.
  - intros p Hin. apply ellipse_vertex_in in Hin as (a & ->).
    cbn [Point32.x Point32.y Point32.z]. split; [reflexivity |].
    transitivity ((width / 2 * (height / 2)) * (width / 2 * (height / 2))
                  * (sin a * sin a + cos a * cos a)); [ring |].
    rewrite sin2_cos2_mul. ring.
Qed.

Lemma PolygonMsgGenerator_toEllipse_vertices_witness :
  exists q : Polygon.t,
    PolygonMsgGenerator.toEllipse 1 2 4 6 16 = ret (Some q)
    /\ Polygon.size q = Z.to_nat 16
    /\ (forall i : nat, (i < Z.to_nat 16)%nat ->
          at_index (Polygon.points q) i
          = Some (Point32.mk (4 / 2 * cos (INR i * 2 * PI / IZR 16) + 1)
                             (6 / 2 * sin (INR i * 2 * PI / IZR 16) + 2)
                             0))
    /\ (forall p : Point32.t, In p (Polygon.points q) ->
          Point32.z p = 0
          /\ ((Point32.x p - 1) * (6 / 2)) * ((Point32.x p - 1) * (6 / 2))
             + ((Point32.y p - 2) * (4 / 2)) * ((Point32.y p - 2) * (4 / 2))
             = (4 / 2 * (6 / 2)) * (4 / 2 * (6 / 2))).
Proof. apply (PolygonMsgGenerator_toEllipse_vertices 1 2 4 6 16). lia. Defined.

(** X28: every vertex of [toCircle] is at distance [|r|] from the centre
    [(x, y)]: [(p.x - x)^2 + (p.y - y)^2 = r^2]; the polygon has [resolution]
    vertices and is empty, without failure, for [resolution <= 0]. *)
Theorem PolygonMsgGenerator_toCircle_radius (x y r : R) (resolution : Z) :
  (resolution <= 2 ^ 30)%Z ->
  exists q : Polygon.t,
    PolygonMsgGenerator.toCircle x y r resolution = ret (Some q)
    /\ Polygon.size q = Z.to_nat resolution
    /\ ((resolution <= 0)%Z -> q = Polygon.empty)
    /\ (forall p : Point32.t, In p (Polygon.points q) ->
          (Point32.x p - x) * (Point32.x p - x) + (Point32.y p - y) * (Point32.y p - y)
          = r * r).
Proof.
  intros _. unfold PolygonMsgGenerator.toCircle. rewrite toEllipse_runs.
  eexists. split; [reflexivity |].
  unfold Polygon.size. cbn [Polygon.points].
  split; [now rewrite !length_map, length_seq |]. split.
  - intros Hle. replace (Z.to_nat resolution) with 0%nat by lia. reflexivity.
  - intros p Hin. apply ellipse_vertex_in in Hin as (a & ->).
    cbn [Point32.x Point32.y].
    transitivity (r * r * (sin a * sin a + cos a * cos a)); [field |].
    rewrite sin2_cos2_mul. ring.
Qed.

Lemma PolygonMsgGenerator_toCircle_radius_witness :
  exists q : Polygon.t,
    PolygonMsgGenerator.toCircle 1 2 3 8 = ret (Some q)
    /\ Polygon.size q = Z.to_nat 8
    /\ ((8 <= 0)%Z -> q = Polygon.empty)
    /\ (forall p : Point32.t, In p (Polygon.points q) ->
          (Point32.x p - 1) * (Point32.x p - 1) + (Point32.y p - 2) * (Point32.y p - 2)
          = 3 * 3).
Proof. apply (PolygonMsgGenerator_toCircle_radius 1 2 3 8). lia. Defined.

(** ** Messages: Pose2D to Twist and Accel and back *)

(** X29: a pose written into a Twist or an Accel message with [toTwistMsg] or
    [toAccelMsg] is read back unchanged by [MsgDecoder::getPose2D], whatever
    the other coordinates of the message are; [getPose2D] never reads outside
    its vectors; and rotating the message with [MsgGenerator::rotate] is the
    same as rotating the pose with [Pose2D::rotate]. *)
Theorem Pose2D_message_round_trip
  (p : Pose2D.t) (twist : Twist.t) (accel : Accel.t) (x y yaw a : R) :
  MsgDecoder.getPose2D_twist (Pose2DMsg.toTwistMsg p twist) = Some p
  /\ MsgDecoder.getPose2D_accel (Pose2DMsg.toAccelMsg p accel) = Some p
  /\ MsgDecoder.getPose2D_twist (MsgGenerator.toTwist3 x y yaw) = Some (Pose2D.mk x y yaw)
  /\ MsgDecoder.getPose2D_accel (MsgGenerator.toAccel3 x y yaw) = Some (Pose2D.mk x y yaw)
  /\ (exists q, MsgDecoder.getPose2D_twist twist = Some q)
  /\ MsgDecoder.getPose2D_twist (MsgGenerator.rotate_twist (Pose2DMsg.toTwistMsg p twist) a)
     = Some (Pose2D.rotate p a)
  /\ MsgDecoder.getPose2D_accel (MsgGenerator.rotate_accel (Pose2DMsg.toAccelMsg p accel) a)
     = Some (Pose2D.rotate p a).
Proof.
  destruct p as [px py pt].
  destruct twist as [[lx ly lz] [ax ay az]], accel as [[lx' ly' lz'] [ax' ay' az']].
  repeat split. eexists. reflexivity.
Qed.

(** ** Angles: normalisation *)

Lemma truncate_bounds (r : R) :
  (0 <= r -> 0 <= r - IZR (truncate r) < 1)
  /\ (r < 0 -> -1 < r - IZR (truncate r) <= 0).
Proof.
  unfold truncate. destruct (Rle_dec 0 r) as [Hr | Hr].
  - split; [| lra]. intros _. pose proof (base_Int_part r). lra.
  - split; [lra |]. intros _. rewrite opp_IZR.
    pose proof (base_Int_part (- r)). lra.
Qed.

Lemma fmod_range (x y : R) :
  0 < y ->
  (0 <= x -> 0 <= fmod x y < y) /\ (x < 0 -> - y < fmod x y <= 0)
  /\ fmod x y = x - IZR (truncate (x / y)) * y.
Proof.
  intros Hy. unfold fmod. destruct (truncate_bounds (x / y)) as [Hpos Hneg].
  set (n := IZR (truncate (x / y))) in *.
  assert (Hq : x - n * y = (x / y - n) * y) by (field; lra).
  split; [| split; [| reflexivity]].
  - intros Hx. assert (0 <= x / y) by (apply Rmult_le_pos; [lra | apply Rlt_le, Rinv_0_lt_compat; lra]).
    rewrite Hq. specialize (Hpos H). nra.
  - intros Hx. assert (x / y < 0).
    { unfold Rdiv. assert (0 < / y) by (apply Rinv_0_lt_compat; lra). nra. }
    rewrite Hq. specialize (Hneg H). nra.
Qed.

Lemma fmod_bound (x y : R) : 0 < y -> - y < fmod x y < y.
Proof.
  intros Hy. destruct (fmod_range x y Hy) as (Hp & Hn & _).
  destruct (Rle_dec 0 x) as [Hx | Hx]; [specialize (Hp Hx) | specialize (Hn ltac:(lra))]; lra.
Qed.

Lemma Rleb_true (a b : R) : Rleb a b = true <-> a <= b.
Proof. unfold Rleb. destruct (Rle_dec a b); split; intros; try easy. Qed.

Lemma Rleb_false (a b : R) : Rleb a b = false <-> b < a.
Proof. unfold Rleb. destruct (Rle_dec a b); split; intros; try easy; lra. Qed.

Lemma normalize_range (angle : R) :
  - PI < Angles.normalize angle <= PI
  /\ exists k : Z, Angles.normalize angle = angle + 2 * PI * IZR k.
Proof.
  pose proof PI_RGT_0 as Hpi. unfold Angles.normalize. cbv zeta.
  pose proof (fmod_bound (angle + PI) (2 * PI) ltac:(lra)) as Hb.
  destruct (fmod_range (angle + PI) (2 * PI) ltac:(lra)) as (_ & _ & Hf).
  set (n := truncate ((angle + PI) / (2 * PI))) in *.
  destruct (Rleb (fmod (angle + PI) (2 * PI)) 0) eqn:Hle.
  - apply Rleb_true in Hle. split; [lra |].
    exists (1 - n)%Z. rewrite Hf, minus_IZR. ring.
  - apply Rleb_false in Hle. split; [lra |].
    exists (- n)%Z. rewrite Hf, opp_IZR. ring.
Qed.

Lemma normalizePositive_range (angle : R) :
  0 <= Angles.normalizePositive angle < 2 * PI
  /\ exists k : Z, Angles.normalizePositive angle = angle + 2 * PI * IZR k.
Proof.
  pose proof PI_RGT_0 as Hpi. unfold Angles.normalizePositive. cbv zeta.
  pose proof (fmod_bound angle (2 * PI) ltac:(lra)) as Hb.
  destruct (fmod_range angle (2 * PI) ltac:(lra)) as (_ & _ & Hf).
  set (n := truncate (angle / (2 * PI))) in *.
  destruct (Rltb (fmod angle (2 * PI)) 0) eqn:Hlt.
  - apply Rltb_true in Hlt. split; [lra |].
    exists (1 - n)%Z. rewrite Hf, minus_IZR. ring.
  - apply Rltb_false in Hlt. split; [lra |].
    exists (- n)%Z. rewrite Hf, opp_IZR. ring.
Qed.

Lemma full_turns_zero (u v : R) (k : Z) (w : R) :
  0 < w -> v = u + w * IZR k -> - w < v - u < w -> k = 0%Z.
Proof.
  intros Hw Hv Hd.
  assert (H1 : IZR k < 1) by nra. assert (H2 : -1 < IZR k) by nra.
  apply lt_IZR in H1. apply lt_IZR in H2. lia.
Qed.

(** X30: [Angles::normalize] returns an angle of [(-PI, PI]] that differs
    from its argument by a whole number of turns, and leaves an angle of that
    interval unchanged (so it is idempotent); [normalizePositive] does the
    same for [[0, 2 PI)]. *)
Theorem Angles_normalize_range (angle : R) :
  (- PI < Angles.normalize angle <= PI
   /\ exists k : Z, Angles.normalize angle = angle + 2 * PI * IZR k)
  /\ (- PI < angle <= PI -> Angles.normalize angle = angle)
  /\ Angles.normalize (Angles.normalize angle) = Angles.normalize angle
  /\ (0 <= Angles.normalizePositive angle < 2 * PI
      /\ exists k : Z, Angles.normalizePositive angle = angle + 2 * PI * IZR k)
  /\ (0 <= angle < 2 * PI -> Angles.normalizePositive angle = angle)
  /\ Angles.normalizePositive (Angles.normalizePositive angle)
     = Angles.normalizePositive angle.
Proof.
  pose proof PI_RGT_0 as Hpi.
  assert (Hfix : forall a, - PI < a <= PI -> Angles.normalize a = a).
  { intros a Ha. destruct (normalize_range a) as (Hr & k & Hk).
    assert (Hz : k = 0%Z)
      by (apply (full_turns_zero a (Angles.normalize a) k (2 * PI)); lra).
    rewrite Hk, Hz. ring. }
  assert (Hfixp : forall a, 0 <= a < 2 * PI -> Angles.normalizePositive a = a).
  { intros a Ha. destruct (normalizePositive_range a) as (Hr & k & Hk).
    assert (Hz : k = 0%Z)
      by (apply (full_turns_zero a (Angles.normalizePositive a) k (2 * PI)); lra).
    rewrite Hk, Hz. ring. }
  split; [apply normalize_range |]. split; [apply Hfix |].
  split; [apply Hfix, normalize_range |].
  split; [apply normalizePositive_range |]. split; [apply Hfixp |].
  apply Hfixp, normalizePositive_range.
Qed.
